(** * The pipeline engine of the codebase explainer backend

    A shallow embedding of [app/services/nodes.py] (classes [BaseNode] and
    [Node]), [app/flow.py] (class [Flow]) and the cached entry point
    [LLMService.generate] of [app/services/llm_service.py], followed by the
    properties of the retry loop, of the transition table, of the driver
    and of the prompt cache.

    Conventions of the embedding:
    - Python objects that are shared and mutated (the nodes) live in a heap
      indexed by their identity; [self] is passed as an identity [this]
      together with the object read from the heap.
    - The lifecycle hooks [prep], [exec], [post] and [exec_fallback] are
      user code.  They are functions of what Python hands them, of a
      read-only view of the attributes of [self] and of an external world
      [W]; they return an outcome and the updated world, and [prep]/[post]
      also return the shared dictionary they were allowed to mutate.
    - Every call of a hook, every [time.sleep] and every [warnings.warn]
      is appended to a log, so that "is invoked exactly n times" is a
      statement about lists. *)

From Stdlib Require Import ZArith.
From stdpp Require Import gmap strings list.

(** ** Python values, exceptions and outcomes *)

Inductive value :=
  | VNone
  | VBool (b : bool)
  | VInt (z : Z)
  | VStr (s : string).

#[global] Instance value_eq_dec : EqDecision value.
Proof. solve_decision. Defined.

(** Instances of Python's [Exception]; this is the class the handler
    [except Exception as e] of the retry loop catches. *)
Record exn := Exception { exn_class : string; exn_msg : string }.

#[global] Instance exn_eq_dec : EqDecision exn.
Proof. solve_decision. Defined.

Inductive outcome (A : Type) :=
  | Returned (a : A)
  | Raised (e : exn).
Arguments Returned {A} a.
Arguments Raised {A} e.

Definition is_raised {A} (o : outcome A) : bool :=
  match o with Raised _ => true | Returned _ => false end.

(** The external world can be paused: [time.sleep(seconds)]. *)
Class Clock (W : Type) := time_sleep : Z → W → W.

(** ** nodes.py *)

Module nodes.

(** A key of the [successors] dictionary.  [action] is annotated [str],
    but [Flow.run] asks [callable(action)], so a key is either a label or
    a callable object; Python compares and hashes a function by identity,
    hence the [id]. *)
Inductive key :=
  | KLabel (s : string)
  | KPred (id : nat) (f : value → bool).

Definition callable (k : key) : bool :=
  match k with KPred _ _ => true | KLabel _ => false end.

Definition key_eqb (a b : key) : bool :=
  match a, b with
  | KLabel s, KLabel t => bool_decide (s = t)
  | KPred i _, KPred j _ => bool_decide (i = j)
  | _, _ => false
  end.

(** What the f-string [f"{action}"] prints. *)
Definition key_str (k : key) : string :=
  match k with KLabel s => s | KPred _ _ => "<function>" end.

(** A Python [dict] from keys to node identities, in insertion order. *)
Definition dict := list (key * nat).

(** [k in d] *)
Fixpoint dict_contains (k : key) (d : dict) : bool :=
  match d with
  | [] => false
  | (k', _) :: d' => if key_eqb k k' then true else dict_contains k d'
  end.

(** [d[k]], as an option *)
Fixpoint dict_get (k : key) (d : dict) : option nat :=
  match d with
  | [] => None
  | (k', v) :: d' => if key_eqb k k' then Some v else dict_get k d'
  end.

(** [d[k] = v]: an existing key keeps its position (and the key object
    first inserted); a new key goes last. *)
Fixpoint dict_setitem (k : key) (v : nat) (d : dict) : dict :=
  match d with
  | [] => [(k, v)]
  | (k', v') :: d' =>
      if key_eqb k k' then (k', v) :: d' else (k', v') :: dict_setitem k v d'
  end.

(** Which class an object was constructed from; it decides which [_exec]
    a call [self._exec(p)] reaches. *)
Inductive node_class := BaseNodeC | NodeC.

(** The attributes of a node.  [max_retries], [wait] and [cur_retry] exist
    on [Node] instances only; on a [BaseNode] they are never read. *)
Record attrs := Attrs {
  cls : node_class;
  params : gmap string value;
  successors : dict;
  max_retries : Z;
  wait : Z;
  cur_retry : Z
}.

Definition set_params_attr (p : gmap string value) (a : attrs) : attrs :=
  Attrs (cls a) p (successors a) (max_retries a) (wait a) (cur_retry a).

Definition set_successors (d : dict) (a : attrs) : attrs :=
  Attrs (cls a) (params a) d (max_retries a) (wait a) (cur_retry a).

Definition set_cur_retry (i : Z) (a : attrs) : attrs :=
  Attrs (cls a) (params a) (successors a) (max_retries a) (wait a) i.

Inductive event :=
  | EvWarn (msg : string)
  | EvPrep (this : nat) (shared : gmap string value) (o : outcome value)
  | EvExec (this : nat) (prep_res : value) (o : outcome value)
  | EvFallback (this : nat) (prep_res : value) (exc : exn) (o : outcome value)
  | EvSleep (seconds : Z)
  | EvPost (this : nat) (shared : gmap string value) (prep_res exec_res : value)
           (o : outcome value).

Definition is_exec (ev : event) : bool :=
  match ev with EvExec _ _ _ => true | _ => false end.
Definition is_fallback (ev : event) : bool :=
  match ev with EvFallback _ _ _ _ => true | _ => false end.
Definition is_sleep (ev : event) : bool :=
  match ev with EvSleep _ => true | _ => false end.
Definition is_prep (ev : event) : bool :=
  match ev with EvPrep _ _ _ => true | _ => false end.
Definition is_post (ev : event) : bool :=
  match ev with EvPost _ _ _ _ _ => true | _ => false end.
Definition is_warn (ev : event) : bool :=
  match ev with EvWarn _ => true | _ => false end.

(** How many events of a log satisfy [f]. *)
Definition count (f : event → bool) (l : list event) : nat :=
  length (List.filter f l).

Section nodes.
Context `{Clock W}.

(** The hooks a subclass overrides. *)
Record phases := Phases {
  prep : attrs → gmap string value → W →
         outcome value * gmap string value * W;
  exec : attrs → value → W → outcome value * W;
  post : attrs → gmap string value → value → value → W →
         outcome value * gmap string value * W;
  exec_fallback : attrs → value → exn → W → outcome value * W
}.

Record node := MkNode { fields : attrs; methods : phases }.

Record env := Env { world : W; log : list event }.

Definition emit (ev : event) (e : env) : env :=
  Env (world e) (log e ++ [ev]).

(** [BaseNode.prep], [BaseNode.exec], [BaseNode.post]: [pass]. *)
Definition BaseNode_prep (_ : attrs) (shared : gmap string value) (w : W)
  : outcome value * gmap string value * W := (Returned VNone, shared, w).
Definition BaseNode_exec (_ : attrs) (_ : value) (w : W)
  : outcome value * W := (Returned VNone, w).
Definition BaseNode_post (_ : attrs) (shared : gmap string value)
    (_ _ : value) (w : W)
  : outcome value * gmap string value * W := (Returned VNone, shared, w).

(** [Node.exec_fallback]: [raise exc]. *)
Definition Node_exec_fallback (_ : attrs) (_ : value) (exc : exn) (w : W)
  : outcome value * W := (Raised exc, w).

Definition default_phases : phases :=
  Phases BaseNode_prep BaseNode_exec BaseNode_post Node_exec_fallback.

(** [BaseNode.__init__] and [Node.__init__], for a subclass with hooks
    [m]. *)
Definition BaseNode_init (m : phases) : node :=
  MkNode (Attrs BaseNodeC ∅ [] 0 0 0) m.
Definition Node_init (max_retries wait : Z) (m : phases) : node :=
  MkNode (Attrs NodeC ∅ [] max_retries wait 0) m.

(** [BaseNode.set_params] *)
Definition BaseNode_set_params (p : gmap string value) (nd : node) : node :=
  MkNode (set_params_attr p (fields nd)) (methods nd).

(** [BaseNode.next]: returns [node], the mutated [self] and the world
    with the warning, if any, logged. *)
Definition BaseNode_next (nd : node) (tgt : nat) (action : key) (e : env)
  : nat * node * env :=
  let e1 :=
    if dict_contains action (successors (fields nd))
    then emit (EvWarn ("Overwriting successor for action '"
                       +:+ key_str action +:+ "'")) e
    else e in
  (tgt,
   MkNode (set_successors (dict_setitem action tgt (successors (fields nd)))
                          (fields nd))
          (methods nd),
   e1).

(** [BaseNode.__rshift__] *)
Definition BaseNode_rshift (nd : node) (other : nat) (e : env)
  : nat * node * env :=
  BaseNode_next nd other (KLabel "default") e.

(** The calls [self.prep(shared)], [self.exec(prep_res)],
    [self.exec_fallback(prep_res, e)] and [self.post(shared, p, e)],
    each logged with its arguments and outcome. *)
Definition call_prep (this : nat) (nd : node) (shared : gmap string value)
    (e : env) : outcome value * gmap string value * env :=
  let '(o, shared', w) := prep (methods nd) (fields nd) shared (world e) in
  (o, shared', Env w (log e ++ [EvPrep this shared o])).

Definition call_exec (this : nat) (nd : node) (prep_res : value) (e : env)
  : outcome value * env :=
  let '(o, w) := exec (methods nd) (fields nd) prep_res (world e) in
  (o, Env w (log e ++ [EvExec this prep_res o])).

Definition call_exec_fallback (this : nat) (nd : node) (prep_res : value)
    (exc : exn) (e : env) : outcome value * env :=
  let '(o, w) :=
    exec_fallback (methods nd) (fields nd) prep_res exc (world e) in
  (o, Env w (log e ++ [EvFallback this prep_res exc o])).

Definition call_post (this : nat) (nd : node) (shared : gmap string value)
    (prep_res exec_res : value) (e : env)
  : outcome value * gmap string value * env :=
  let '(o, shared', w) :=
    post (methods nd) (fields nd) shared prep_res exec_res (world e) in
  (o, shared', Env w (log e ++ [EvPost this shared prep_res exec_res o])).

(** [time.sleep(seconds)] *)
Definition sleep (seconds : Z) (e : env) : env :=
  Env (time_sleep seconds (world e)) (log e ++ [EvSleep seconds]).

(** [BaseNode._exec] *)
Definition BaseNode__exec (this : nat) (nd : node) (prep_res : value)
    (e : env) : outcome value * node * env :=
  let '(o, e1) := call_exec this nd prep_res e in (o, nd, e1).

(** [range(n)] *)
Definition range (n : Z) : list Z :=
  map Z.of_nat (seq 0 (Z.to_nat n)).

(** The assignment [self.cur_retry = i] made by the [for] statement. *)
Definition at_retry (nd : node) (i : Z) : node :=
  MkNode (set_cur_retry i (fields nd)) (methods nd).

(** The [for self.cur_retry in ...] loop of [Node._exec] over the
    indices still to come; falling off the end of the loop returns
    [None]. *)
Fixpoint retry_loop (this : nat) (nd : node) (prep_res : value)
    (indices : list Z) (e : env) : outcome value * node * env :=
  match indices with
  | [] => (Returned VNone, nd, e)
  | i :: rest =>
      let nd := at_retry nd i in
      let '(o, e1) := call_exec this nd prep_res e in
      match o with
      | Returned v => (Returned v, nd, e1)
      | Raised exc =>
          if bool_decide (cur_retry (fields nd)
                          = (max_retries (fields nd) - 1)%Z)
          then
            let '(o2, e2) := call_exec_fallback this nd prep_res exc e1 in
            (o2, nd, e2)
          else
            let e2 :=
              if bool_decide (wait (fields nd) > 0)%Z
              then sleep (wait (fields nd)) e1 else e1 in
            retry_loop this nd prep_res rest e2
      end
  end.

(** [Node._exec] *)
Definition Node__exec (this : nat) (nd : node) (prep_res : value) (e : env)
  : outcome value * node * env :=
  retry_loop this nd prep_res (range (max_retries (fields nd))) e.

(** Attempts of [exec], for stating what "raises on the first attempts"
    means when the outcome of [exec] depends on the world: [env_before j e]
    is the state in which attempt number [j] (counted from 0) starts when
    [_exec] was entered in [e] and every earlier attempt was followed by
    the retry delay; [attempt j e] is the call of [exec] made there. *)
Fixpoint env_before (this : nat) (nd : node) (prep_res : value) (j : nat)
    (e : env) : env :=
  match j with
  | O => e
  | S j' =>
      let e1 :=
        snd (call_exec this (at_retry nd (Z.of_nat j')) prep_res
                       (env_before this nd prep_res j' e)) in
      if bool_decide (wait (fields nd) > 0)%Z
      then sleep (wait (fields nd)) e1 else e1
  end.

Definition attempt (this : nat) (nd : node) (prep_res : value) (j : nat)
    (e : env) : outcome value * env :=
  call_exec this (at_retry nd (Z.of_nat j)) prep_res
            (env_before this nd prep_res j e).

(** The call [self._exec(p)], resolved on the class of [self]. *)
Definition _exec (this : nat) (nd : node) (prep_res : value) (e : env)
  : outcome value * node * env :=
  match cls (fields nd) with
  | BaseNodeC => BaseNode__exec this nd prep_res e
  | NodeC => Node__exec this nd prep_res e
  end.

(** [BaseNode._run] *)
Definition BaseNode__run (this : nat) (nd : node)
    (shared : gmap string value) (e : env)
  : outcome value * node * gmap string value * env :=
  let '(op, shared1, e1) := call_prep this nd shared e in
  match op with
  | Raised exc => (Raised exc, nd, shared1, e1)
  | Returned p =>
      let '(oe, nd2, e2) := _exec this nd p e1 in
      match oe with
      | Raised exc => (Raised exc, nd2, shared1, e2)
      | Returned x =>
          let '(oq, shared3, e3) := call_post this nd2 shared1 p x e2 in
          (oq, nd2, shared3, e3)
      end
  end.

(** [BaseNode.run] *)
Definition BaseNode_run (this : nat) (nd : node)
    (shared : gmap string value) (e : env)
  : outcome value * node * gmap string value * env :=
  let e1 :=
    match successors (fields nd) with
    | [] => e
    | _ :: _ => emit (EvWarn "Node won't run successors. Use Flow.") e
    end in
  BaseNode__run this nd shared e1.

End nodes.
End nodes.

(** ** flow.py *)

Module flow.
Import nodes.

(** The attributes of a [Flow] object. *)
Record Flow := MkFlow {
  start : nat;
  current_node : nat;
  shared_data : gmap string value;
  history : list nat
}.

(** The transition selection of [Flow.run]: the [for action, node in
    current.successors.items()] loop with its two [break]s. *)
Fixpoint select (items : dict) (prep_result : value) : option nat :=
  match items with
  | [] => None
  | (action, node) :: rest =>
      match action with
      | KPred _ f => if f prep_result then Some node else select rest prep_result
      | KLabel _ => Some node
      end
  end.

(** [if params:] on an optional dictionary: [None] and [{}] are falsy. *)
Definition truthy (params : option (gmap string value)) : bool :=
  match params with
  | None => false
  | Some p => negb (bool_decide (p = ∅))
  end.

(** What Python raises when a method is looked up on an object that is
    not a node. *)
Definition AttributeError : exn :=
  Exception "AttributeError" "object has no attribute 'prep'".

Section flow.
Context `{Clock W}.

(** The heap of node objects, the flow object and the world. *)
Record machine := Machine {
  heap : gmap nat (node (W:=W));
  flow_obj : Flow;
  environ : env (W:=W)
}.

(** [Flow.__init__] *)
Definition Flow_init (start : nat) : Flow := MkFlow start start ∅ [].

(** The statement [a >> b] on two objects of the heap. *)
Definition rshift_stmt (a b : nat) (m : machine) : machine :=
  match heap m !! a with
  | None => m
  | Some nd =>
      let '(_, nd', e') := BaseNode_rshift nd b (environ m) in
      Machine (<[a := nd']> (heap m)) (flow_obj m) e'
  end.

(** The statement [a.next(b, action)]. *)
Definition next_stmt (a b : nat) (action : key) (m : machine) : machine :=
  match heap m !! a with
  | None => m
  | Some nd =>
      let '(_, nd', e') := BaseNode_next nd b action (environ m) in
      Machine (<[a := nd']> (heap m)) (flow_obj m) e'
  end.

(** One pass through the body of [while current:].  It returns the new
    values of [result] and [current], or the exception that leaves
    [run]. *)
Definition iteration (current : nat) (m : machine)
  : outcome (value * option nat) * machine :=
  let fl := flow_obj m in
  (* self.history.append(current) *)
  let fl1 := MkFlow (start fl) (current_node fl) (shared_data fl)
                    (history fl ++ [current]) in
  match heap m !! current with
  | None => (Raised AttributeError, Machine (heap m) fl1 (environ m))
  | Some nd =>
      (* current.prep(self.shared_data) *)
      let '(o1, sh1, e1) := call_prep current nd (shared_data fl1) (environ m) in
      let fl2 := MkFlow (start fl1) (current_node fl1) sh1 (history fl1) in
      match o1 with
      | Raised exc => (Raised exc, Machine (heap m) fl2 e1)
      | Returned _ =>
          (* prep_result = current._run(self.shared_data) *)
          let '(o2, nd2, sh2, e2) := BaseNode__run current nd sh1 e1 in
          let fl3 := MkFlow (start fl2) (current_node fl2) sh2 (history fl2) in
          let m3 := Machine (<[current := nd2]> (heap m)) fl3 e2 in
          match o2 with
          | Raised exc => (Raised exc, m3)
          | Returned prep_result =>
              (Returned (prep_result,
                         select (successors (fields nd2)) prep_result),
               m3)
          end
      end
  end.

Inductive run_result :=
  | OutOfFuel
  | Finished (o : outcome value) (m : machine).

(** [while current: ...; return result] *)
Fixpoint loop (fuel : nat) (current : option nat) (result : value)
    (m : machine) : run_result :=
  match current with
  | None => Finished (Returned result) m
  | Some c =>
      match fuel with
      | O => OutOfFuel
      | S fuel' =>
          match iteration c m with
          | (Raised exc, m') => Finished (Raised exc) m'
          | (Returned (r, next_node), m') => loop fuel' next_node r m'
          end
      end
  end.

(** [Flow.run] *)
Definition Flow_run (fuel : nat) (params : option (gmap string value))
    (m : machine) : run_result :=
  let fl := flow_obj m in
  let fl1 :=
    match params with
    | Some p =>
        if truthy params
        then MkFlow (start fl) (current_node fl) (p ∪ shared_data fl)
                    (history fl)
        else fl
    | None => fl
    end in
  loop fuel (Some (start fl1)) VNone (Machine (heap m) fl1 (environ m)).

(** [Flow.reset] *)
Definition Flow_reset (m : machine) : machine :=
  Machine (heap m)
          (MkFlow (start (flow_obj m)) (start (flow_obj m)) ∅ [])
          (environ m).

(** The machine that a finished run leaves behind. *)
Definition machine_after (r : run_result) (otherwise : machine) : machine :=
  match r with Finished _ m' => m' | OutOfFuel => otherwise end.

(** The pipeline assembled by [a >> b] and [b >> c] from three node
    objects, with a [Flow] constructed on [a]. *)
Definition pipeline3 (a b c : nat) (nA nB nC : node) (e : env) : machine :=
  rshift_stmt b c
    (rshift_stmt a b
       (Machine (<[a := nA]> (<[b := nB]> (<[c := nC]> ∅))) (Flow_init a) e)).

(** Hooks that complete normally on every input. *)
Definition never_raises (m : phases (W:=W)) : Prop :=
  (∀ a sh (w : W), is_raised (prep m a sh w).1.1 = false)
  ∧ (∀ a p (w : W), is_raised (exec m a p w).1 = false)
  ∧ (∀ a sh p x (w : W), is_raised (post m a sh p x w).1.1 = false).

End flow.

(** The nodes whose [post] hook a log records, in order. *)
Definition posts (l : list event) : list nat :=
  omap (λ ev, match ev with EvPost this _ _ _ _ => Some this | _ => None end) l.

End flow.


(** ** llm_service.py *)

Module llm_service.

(** The file [llm_cache.json]: missing, present but not loadable (the
    [open] or the [json.load] raises), or holding a flat JSON object. *)
Inductive cache_file_state :=
  | Absent
  | Unreadable
  | Stored (cache : gmap string string).

Inductive llm_event :=
  | LogInfo (msg : string)
  | LogWarning (msg : string)
  | LogError (msg : string)
  | ProviderCall (provider prompt : string).

Definition is_provider_call (ev : llm_event) : bool :=
  match ev with ProviderCall _ _ => true | _ => false end.

(** What [generate] reads and writes: the cache file, whether it can be
    opened for writing, the environment variable [LLM_PROVIDER] (already
    defaulted to ["gemini"]) and the log. *)
Record llm_state := LlmState {
  cache_file : cache_file_state;
  writable : bool;
  llm_provider : string;
  llm_log : list llm_event
}.

Definition logger (ev : llm_event) (s : llm_state) : llm_state :=
  LlmState (cache_file s) (writable s) (llm_provider s) (llm_log s ++ [ev]).

Definition write_cache (c : gmap string string) (s : llm_state) : llm_state :=
  LlmState (Stored c) (writable s) (llm_provider s) (llm_log s).

Definition supported (provider : string) : bool :=
  bool_decide (provider = "gemini") || bool_decide (provider = "anthropic")
  || bool_decide (provider = "openai").

Section generate.
(** The remote model behind [self.client]: the text it answers to a
    prompt, or the exception the client library raises. *)
Variable client : string → string → outcome string.

(** The first load of the cache, which logs a warning when it fails. *)
Definition load_cache_warn (s : llm_state) : gmap string string * llm_state :=
  match cache_file s with
  | Absent => (∅, s)
  | Unreadable =>
      (∅, logger (LogWarning "Failed to load cache, starting with empty cache") s)
  | Stored c => (c, s)
  end.

(** The second load, whose failure is passed over. *)
Definition load_cache_quiet (s : llm_state) : gmap string string :=
  match cache_file s with
  | Stored c => c
  | Absent | Unreadable => ∅
  end.

(** The provider dispatch in the middle of [generate]. *)
Definition call_provider (prompt : string) (s : llm_state)
  : outcome string * llm_state :=
  let provider := llm_provider s in
  if supported provider
  then (client provider prompt, logger (ProviderCall provider prompt) s)
  else (Raised (Exception "ValueError"
                  ("Unsupported LLM provider: " +:+ provider)), s).

(** The cache update at the end of [generate]. *)
Definition update_cache (prompt response_text : string) (s : llm_state)
  : llm_state :=
  let cache := <[prompt := response_text]> (load_cache_quiet s) in
  if writable s
  then write_cache cache s
  else logger (LogError "Failed to save cache: cannot open file") s.

(** [LLMService.generate] *)
Definition generate (prompt : string) (use_cache : bool) (s : llm_state)
  : outcome string * llm_state :=
  let s := logger (LogInfo ("PROMPT: " +:+ prompt)) s in
  let '(hit, s) :=
    if use_cache
    then let '(cache, s1) := load_cache_warn s in (cache !! prompt, s1)
    else (None, s) in
  match hit with
  | Some r => (Returned r, logger (LogInfo ("CACHE HIT - RESPONSE: " +:+ r)) s)
  | None =>
      match call_provider prompt s with
      | (Raised e, s2) =>
          let msg := "LLM generation failed: " +:+ exn_msg e in
          (Raised (Exception "Exception" msg), logger (LogError msg) s2)
      | (Returned response_text, s2) =>
          let s3 := logger (LogInfo ("RESPONSE: " +:+ response_text)) s2 in
          let s4 := if use_cache then update_cache prompt response_text s3
                    else s3 in
          (Returned response_text, s4)
      end
  end.

End generate.
End llm_service.


(** ** Concrete pipelines, used to exercise the statements below *)

Module examples.
Import nodes flow llm_service.

(** A world that is a clock in seconds. *)
#[global] Instance nat_clock : Clock nat := λ seconds w, w + Z.to_nat seconds.

Definition boom : exn := Exception "ValueError" "Repository URL is required".

(** [exec] that always raises. *)
Definition failing_phases : phases (W:=nat) :=
  Phases BaseNode_prep (λ _ _ w, (Raised boom, w)) BaseNode_post
         Node_exec_fallback.

(** [exec] that raises until the clock shows 4 seconds. *)
Definition flaky_phases : phases (W:=nat) :=
  Phases BaseNode_prep
         (λ _ _ w, if Nat.ltb w 4 then (Raised boom, w)
                   else (Returned (VInt (Z.of_nat w)), w))
         BaseNode_post Node_exec_fallback.

(** [prep] counts its calls under the key ["preps"] of the shared
    dictionary; [post] returns the name of the step. *)
Definition bump (shared : gmap string value) : gmap string value :=
  match shared !! "preps" with
  | Some (VInt n) => <["preps" := VInt (n + 1)]> shared
  | _ => <["preps" := VInt 1]> shared
  end.

Definition named_phases (name : string) : phases (W:=nat) :=
  Phases (λ _ shared w, (Returned VNone, bump shared, w))
         BaseNode_exec
         (λ _ shared _ _ w, (Returned (VStr name), <[name := VBool true]> shared, w))
         Node_exec_fallback.

Definition env0 : env (W:=nat) := Env 0 [].

(** A flow of one step without successors. *)
Definition single : machine (W:=nat) :=
  Machine {[ 0 := BaseNode_init (named_phases "A") ]} (Flow_init 0) env0.

(** A step whose table holds a predicate edge, then the default edge,
    then another predicate edge. *)
Definition branching : dict :=
  [ (KPred 0 (λ _, true), 10); (KLabel "default", 20);
    (KPred 1 (λ _, false), 30) ].

Definition wired : node (W:=nat) :=
  MkNode (Attrs BaseNodeC ∅ [(KLabel "default", 1); (KLabel "retry", 2)] 0 0 0)
         default_phases.

(** [single] after one run. *)
Definition ran_once : machine (W:=nat) :=
  machine_after (Flow_run 1 None single) single.

(** Three steps in a line; the middle one retries. *)
Definition three_steps : machine (W:=nat) :=
  pipeline3 0 1 2 (BaseNode_init (named_phases "A"))
            (Node_init 2 0 (named_phases "B"))
            (BaseNode_init (named_phases "C")) env0.

Definition cached : llm_state :=
  LlmState (Stored {[ "p" := "r" ]}) true "gemini" [].

End examples.


(** ** nodes.py and tutorial_generator.py: the wiring operators *)

Module operators.
Import nodes flow.

(** [_ConditionalTransition]: what [node - "action"] evaluates to. *)
Record _ConditionalTransition := MkTransition { src : nat; action : string }.

Definition TypeError : exn := Exception "TypeError" "Action must be a string".

(** [BaseNode.__sub__], with its [isinstance(action, str)] test. *)
Definition BaseNode_sub (this : nat) (action : value)
  : outcome _ConditionalTransition :=
  match action with
  | VStr s => Returned (MkTransition this s)
  | VNone | VBool _ | VInt _ => Raised TypeError
  end.

(** The node on which a logged hook call was made, and how the call
    ended. *)
Definition event_node (ev : event) : option nat :=
  match ev with
  | EvPrep this _ _ | EvExec this _ _ | EvFallback this _ _ _
  | EvPost this _ _ _ _ => Some this
  | EvWarn _ | EvSleep _ => None
  end.

Definition event_outcome (ev : event) : option (outcome value) :=
  match ev with
  | EvPrep _ _ o | EvExec _ _ o | EvFallback _ _ _ o | EvPost _ _ _ _ o => Some o
  | EvWarn _ | EvSleep _ => None
  end.

(** The events that [_exec] on the node [this] may log: calls of its
    [exec] and [exec_fallback], and pauses. *)
Definition retry_event (this : nat) (ev : event) : bool :=
  match ev with
  | EvExec t _ _ | EvFallback t _ _ _ => bool_decide (t = this)
  | EvSleep _ => true
  | EvWarn _ | EvPrep _ _ _ | EvPost _ _ _ _ _ => false
  end.

(** Tables without a callable key. *)
Definition labels_only (d : dict) : bool :=
  forallb (λ edge, negb (callable edge.1)) d.

(** What [object.run] raises on an object that is not a node. *)
Definition AttributeError_run : exn :=
  Exception "AttributeError" "object has no attribute 'run'".

Section operators.
Context `{Clock W}.

(** [_ConditionalTransition.__rshift__]: the expression [t >> tgt]. *)
Definition ConditionalTransition_rshift (t : _ConditionalTransition)
    (tgt : nat) (m : machine (W:=W)) : nat * machine (W:=W) :=
  (tgt, next_stmt (src t) tgt (KLabel (action t)) m).

(** The expression [a >> b], whose value is [b]. *)
Definition rshift_expr (a b : nat) (m : machine (W:=W))
  : nat * machine (W:=W) :=
  (b, rshift_stmt a b m).

(** The expression [a >> b1 >> b2 >> ...], which Python groups to the
    left: [((a >> b1) >> b2) >> ...]. *)
Fixpoint rshift_chain (a : nat) (rest : list nat) (m : machine (W:=W))
  : nat * machine (W:=W) :=
  match rest with
  | [] => (a, m)
  | b :: rest' =>
      let '(r, m') := rshift_expr a b m in rshift_chain r rest' m'
  end.

(** The statements [n0 >> n1], [n1 >> n2], ... one after the other, as
    in [create_tutorial_flow]. *)
Fixpoint connect_in_sequence (ids : list nat) (m : machine (W:=W))
  : machine (W:=W) :=
  match ids with
  | a :: rest =>
      match rest with
      | b :: _ => connect_in_sequence rest (rshift_stmt a b m)
      | [] => m
      end
  | [] => m
  end.

(** The call [obj.run(shared)] on an object of the heap, as made by
    [TutorialGenerator.generate] on [self.flow]. *)
Definition run_stmt (this : nat) (shared : gmap string value)
    (m : machine (W:=W))
  : outcome value * gmap string value * machine (W:=W) :=
  match heap m !! this with
  | None => (Raised AttributeError_run, shared, m)
  | Some nd =>
      let '(o, nd', shared', e') := BaseNode_run this nd shared (environ m) in
      (o, shared', Machine (<[this := nd']> (heap m)) (flow_obj m) e')
  end.

(** A heap in which the nodes [ids] form a line: each has the next one
    as its only successor, under the key ["default"], the last one has
    none, and all of them satisfy [P]. *)
Fixpoint in_line (P : node (W:=W) → Prop) (ids : list nat)
    (h : gmap nat (node (W:=W))) : Prop :=
  match ids with
  | [] => True
  | a :: rest =>
      (∃ nd, h !! a = Some nd
             ∧ P nd
             ∧ successors (fields nd)
               = match rest with
                 | [] => []
                 | b :: _ => [(KLabel "default", b)]
                 end)
      ∧ in_line P rest h
  end.

End operators.
End operators.


(** ** nodes.py: [FetchRepo._filter_files] *)

Module fetch_repo.

(** An entry of [repo_data["files"]]. *)
Record file := File { path : string; size : Z; content : string }.

(** The keys of [self.params] that [_filter_files] reads; [None] stands
    for a key that is not in the dictionary. *)
Record filter_params := FilterParams {
  include_patterns : option (list string);
  exclude_patterns : option (list string);
  max_file_size : option Z
}.

(** [c in chars] *)
Fixpoint char_in (c : Ascii.ascii) (chars : string) : bool :=
  match chars with
  | EmptyString => false
  | String c' chars' => if Ascii.eqb c c' then true else char_in c chars'
  end.

(** [s.lstrip(chars)] *)
Fixpoint lstrip (chars s : string) : string :=
  match s with
  | EmptyString => EmptyString
  | String c s' => if char_in c chars then lstrip chars s' else s
  end.

(** [s.rstrip(chars)] *)
Fixpoint rstrip (chars s : string) : string :=
  match s with
  | EmptyString => EmptyString
  | String c s' =>
      match rstrip chars s' with
      | EmptyString => if char_in c chars then EmptyString
                       else String c EmptyString
      | String _ _ as t => String c t
      end
  end.

(** [s.startswith(prefix)] *)
Fixpoint startswith (s prefix : string) : bool :=
  match prefix, s with
  | EmptyString, _ => true
  | String _ _, EmptyString => false
  | String a prefix', String b s' =>
      if Ascii.eqb a b then startswith s' prefix' else false
  end.

(** [s.endswith(suffix)] *)
Fixpoint endswith (s suffix : string) : bool :=
  if String.eqb s suffix then true
  else match s with
       | EmptyString => false
       | String _ s' => endswith s' suffix
       end.

(** Strings made only of characters of [chars]. *)
Fixpoint only_chars (chars s : string) : bool :=
  match s with
  | EmptyString => true
  | String c s' => char_in c chars && only_chars chars s'
  end.

(** The loop over [include_patterns], left at the first match. *)
Fixpoint include_loop (p : string) (patterns : list string) : bool :=
  match patterns with
  | [] => false
  | pattern :: rest =>
      if endswith p (lstrip "*" pattern) then true else include_loop p rest
  end.

(** The loop over [exclude_patterns], left at the first match. *)
Fixpoint exclude_loop (p : string) (patterns : list string) : bool :=
  match patterns with
  | [] => false
  | pattern :: rest =>
      if startswith p (rstrip "/*" pattern) then true else exclude_loop p rest
  end.

(** The loop over [files], appending to [filtered_files]. *)
Fixpoint filter_loop (includes excludes : list string) (max_size : Z)
    (files filtered_files : list file) : list file :=
  match files with
  | [] => filtered_files
  | f :: rest =>
      let filtered_files :=
        if (size f <=? max_size)%Z
        then
          let include := include_loop (path f) includes in
          let exclude := exclude_loop (path f) excludes in
          if include && negb exclude then filtered_files ++ [f]
          else filtered_files
        else filtered_files in
      filter_loop includes excludes max_size rest filtered_files
  end.

(** [FetchRepo._filter_files] *)
Definition _filter_files (params : filter_params) (files : list file)
  : list file :=
  let include_patterns := default [] (include_patterns params) in
  let exclude_patterns := default [] (exclude_patterns params) in
  let max_size := default 100000%Z (max_file_size params) in
  filter_loop include_patterns exclude_patterns max_size files [].

End fetch_repo.


(** ** llm_service.py: [LLMService.setup_client] *)

Module llm_client.

(** The client object built for a provider, with the key it was given. *)
Inductive client :=
  | GeminiClient (api_key : string)
  | AnthropicClient (api_key : string)
  | OpenAIClient (api_key : string).





End llm_client.


(** ** More concrete inputs *)

Module samples.
Import nodes flow operators fetch_repo llm_service.

(** Three new nodes on the heap, not yet connected. *)
Definition fresh_three : machine (W:=nat) :=
  Machine (<[0 := BaseNode_init (examples.named_phases "A")]>
             (<[1 := Node_init 2 0 (examples.named_phases "B")]>
                (<[2 := BaseNode_init (examples.named_phases "C")]> ∅)))
          (Flow_init 0) examples.env0.

(** The one-step flow after [a >> a]. *)
Definition looping : machine (W:=nat) := rshift_stmt 0 0 examples.single.


Definition repo_files : list file :=
  [ File "src/app.py" 120 "print(1)"; File "tests/test_app.py" 80 "";
    File "README.md" 40 "# readme"; File "data/big.py" 200000 "";
    File "src/util.js" 10 "" ].

Definition python_params : filter_params :=
  FilterParams (Some ["*.py"; "*.md"]) (Some ["tests/*"]) None.

(** No cache file yet, Gemini selected. *)
Definition no_cache : llm_state := LlmState Absent true "gemini" [].

(** A cache file that cannot be rewritten. *)
Definition read_only_cache : llm_state :=
  LlmState (Stored {[ "p" := "r" ]}) false "gemini" [].

(** A provider that answers, and one that is down. *)
Definition answering (provider prompt : string) : outcome string :=
  Returned ("answer to " +:+ prompt).
Definition down (provider prompt : string) : outcome string :=
  Raised (Exception "ConnectionError" "connection refused").


End samples.


(** * Properties of the retry loop ([Node._exec]) *)

Section retry_properties.
Import nodes.
Context `{Clock W}.
Implicit Types (nd : node (W:=W)) (e : env (W:=W)).

Lemma count_app f (l1 l2 : list event) :
  count f (l1 ++ l2) = count f l1 + count f l2.
Proof. unfold count. by rewrite List.filter_app, length_app. Qed.

Lemma call_exec_log this nd p e :
  log (snd (call_exec this nd p e))
  = log e ++ [EvExec this p (fst (call_exec this nd p e))].
Proof. unfold call_exec. by destruct (exec _ _ _ _). Qed.

(** Before attempt [j] the log holds [j] calls of [exec], no call of the
    fallback, and one pause per call when [wait] is positive. *)
Lemma env_before_log this nd p j e :
  ∃ evs, log (env_before this nd p j e) = log e ++ evs
         ∧ count is_exec evs = j
         ∧ count is_fallback evs = 0
         ∧ count is_sleep evs
           = if bool_decide (wait (fields nd) > 0)%Z then j else 0.
Proof.
  induction j as [|j (evs & Hlog & Hex & Hfb & Hsl)].
  - exists []. rewrite app_nil_r. by case_bool_decide.
  - cbn [env_before].
    pose proof (call_exec_log this (at_retry nd (Z.of_nat j)) p
                  (env_before this nd p j e)) as Hc.
    rewrite Hlog in Hc.
    set (o := fst (call_exec this (at_retry nd (Z.of_nat j)) p
                     (env_before this nd p j e))) in *.
    case_bool_decide.
    + exists (evs ++ [EvExec this p o; EvSleep (wait (fields nd))]).
      cbn [sleep log]. rewrite Hc, !count_app, Hex, Hfb, Hsl.
      rewrite <- !app_assoc. cbn. repeat split; lia.
    + exists (evs ++ [EvExec this p o]).
      rewrite Hc, !count_app, Hex, Hfb, Hsl.
      rewrite <- !app_assoc. cbn. repeat split; lia.
Qed.

(** Failed attempts that are not the last allowed one are passed over:
    the loop goes on with the remaining indices. *)
Lemma retry_loop_skip this nd p e0 rest m :
  ∀ a c,
    (Z.of_nat (a + m) ≤ max_retries (fields nd) - 1)%Z →
    (∀ j, a ≤ j < a + m → is_raised (fst (attempt this nd p j e0)) = true) →
    ∃ c', retry_loop this (at_retry nd c) p
            (map Z.of_nat (seq a m) ++ rest) (env_before this nd p a e0)
          = retry_loop this (at_retry nd c') p rest
              (env_before this nd p (a + m) e0).
Proof.
  induction m as [|m IH]; intros a c Hle Hfail.
  - exists c. by rewrite Nat.add_0_r.
  - cbn [seq map app retry_loop].
    change (at_retry (at_retry nd c) (Z.of_nat a)) with (at_retry nd (Z.of_nat a)).
    pose proof (Hfail a ltac:(lia)) as Ha. unfold attempt in Ha.
    destruct (call_exec this (at_retry nd (Z.of_nat a)) p
                (env_before this nd p a e0)) as [o e1] eqn:Hcall.
    destruct o as [v|exc]; [done|].
    cbn [fields at_retry set_cur_retry cur_retry max_retries wait].
    rewrite bool_decide_eq_false_2 by lia.
    destruct (IH (S a) (Z.of_nat a)) as [c' Hc'].
    { lia. } { intros j Hj. apply Hfail. lia. }
    exists c'. replace (a + S m) with (S a + m) by lia.
    rewrite <- Hc'. cbn [env_before]. by rewrite Hcall.
Qed.

Lemma at_retry_own nd : at_retry nd (cur_retry (fields nd)) = nd.
Proof. by destruct nd as [[] ?]. Qed.

Lemma range_of_nat (n : nat) : range (Z.of_nat n) = map Z.of_nat (seq 0 n).
Proof. unfold range. by rewrite Nat2Z.id. Qed.

(** C1.  A [Node] with [max_retries = N], [N >= 1], whose [exec] raises at
    each of the [N] attempts: [_exec] calls [exec] exactly [N] times and
    [exec_fallback] exactly once, with the prep result and the exception
    of the [N]th attempt; the fallback call follows that attempt at once
    (the only pauses are the [N - 1] ones between attempts, taken when
    [wait > 0]), and [_exec] ends as the fallback ends. *)
Theorem exec_raising_every_attempt this nd p e (N : nat) :
  max_retries (fields nd) = Z.of_nat N →
  1 ≤ N →
  (∀ j, j < N → is_raised (fst (attempt this nd p j e)) = true) →
  ∃ exc o e' front,
    Node__exec this nd p e = (o, at_retry nd (Z.of_nat (N - 1)), e')
    ∧ fst (attempt this nd p (N - 1) e) = Raised exc
    ∧ exec_fallback (methods nd) (fields (at_retry nd (Z.of_nat (N - 1))))
        p exc (world (snd (attempt this nd p (N - 1) e)))
      = (o, world e')
    ∧ log e' = log e ++ front
               ++ [EvExec this p (Raised exc); EvFallback this p exc o]
    ∧ count is_exec front = N - 1
    ∧ count is_exec
        (front ++ [EvExec this p (Raised exc); EvFallback this p exc o]) = N
    ∧ count is_fallback
        (front ++ [EvExec this p (Raised exc); EvFallback this p exc o]) = 1
    ∧ count is_sleep
        (front ++ [EvExec this p (Raised exc); EvFallback this p exc o])
      = if bool_decide (wait (fields nd) > 0)%Z then N - 1 else 0.
Proof.
  intros Hmax HN Hfail.
  destruct N as [|m]; [lia|]. replace (S m - 1) with m by lia.
  unfold Node__exec. rewrite Hmax, range_of_nat, seq_S, map_app.
  cbn [map Nat.add].
  destruct (retry_loop_skip this nd p e [Z.of_nat m] m 0
              (cur_retry (fields nd))) as [c' Hskip].
  { rewrite Hmax. lia. } { intros j Hj. apply Hfail. lia. }
  rewrite at_retry_own in Hskip. cbn [env_before] in Hskip. rewrite Hskip.
  cbn [Nat.add map retry_loop].
  change (at_retry (at_retry nd c') (Z.of_nat m)) with (at_retry nd (Z.of_nat m)).
  pose proof (Hfail m ltac:(lia)) as Hm.
  pose proof (call_exec_log this (at_retry nd (Z.of_nat m)) p
                (env_before this nd p m e)) as Hlog.
  unfold attempt in *.
  destruct (call_exec this (at_retry nd (Z.of_nat m)) p
              (env_before this nd p m e)) as [o1 e1] eqn:Hcall.
  destruct o1 as [v|exc]; [done|]. cbn [fst snd] in *.
  cbn [fields at_retry set_cur_retry cur_retry max_retries].
  rewrite bool_decide_eq_true_2 by lia.
  unfold call_exec_fallback.
  destruct (exec_fallback _ _ p exc (world e1)) as [o w] eqn:Hfb.
  destruct (env_before_log this nd p m e) as (front & Hfront & Hex & Hfbk & Hsl).
  exists exc, o, (Env w (log e1 ++ [EvFallback this p exc o])), front.
  rewrite !count_app, Hex, Hfbk, Hsl. cbn [log world].
  rewrite Hlog, Hfront, <- !app_assoc.
  repeat split; try done; cbn; lia.
Qed.

(** C4.  A [Node] with [max_retries = N] whose [exec] raises at the first
    [k - 1] attempts and returns [v] at attempt [k <= N]: [_exec] calls
    [exec] exactly [k] times and returns [v]; the successful call is the
    last thing that happens (no pause follows it) and [exec_fallback] is
    not called. *)
Theorem exec_succeeding_at_attempt this nd p e (N k : nat) v :
  max_retries (fields nd) = Z.of_nat N →
  1 ≤ k ≤ N →
  (∀ j, j < k - 1 → is_raised (fst (attempt this nd p j e)) = true) →
  fst (attempt this nd p (k - 1) e) = Returned v →
  ∃ e' front,
    Node__exec this nd p e = (Returned v, at_retry nd (Z.of_nat (k - 1)), e')
    ∧ world e' = world (snd (attempt this nd p (k - 1) e))
    ∧ log e' = log e ++ front ++ [EvExec this p (Returned v)]
    ∧ count is_exec (front ++ [EvExec this p (Returned v)]) = k
    ∧ count is_fallback (front ++ [EvExec this p (Returned v)]) = 0
    ∧ count is_sleep (front ++ [EvExec this p (Returned v)])
      = if bool_decide (wait (fields nd) > 0)%Z then k - 1 else 0.
Proof.
  intros Hmax [Hk HkN] Hfail Hok.
  destruct k as [|m]; [lia|]. replace (S m - 1) with m in * by lia.
  unfold Node__exec. rewrite Hmax, range_of_nat.
  replace N with (m + S (N - S m)) by lia.
  rewrite seq_app, map_app. cbn [seq map Nat.add].
  destruct (retry_loop_skip this nd p e
              (Z.of_nat m :: map Z.of_nat (seq (S m) (N - S m))) m 0
              (cur_retry (fields nd))) as [c' Hskip].
  { rewrite Hmax. lia. } { intros j Hj. apply Hfail. lia. }
  rewrite at_retry_own in Hskip. cbn [env_before] in Hskip. rewrite Hskip.
  cbn [Nat.add retry_loop].
  change (at_retry (at_retry nd c') (Z.of_nat m)) with (at_retry nd (Z.of_nat m)).
  pose proof (call_exec_log this (at_retry nd (Z.of_nat m)) p
                (env_before this nd p m e)) as Hlog.
  unfold attempt in *.
  destruct (call_exec this (at_retry nd (Z.of_nat m)) p
              (env_before this nd p m e)) as [o1 e1] eqn:Hcall.
  cbn [fst snd] in *. subst o1.
  destruct (env_before_log this nd p m e) as (front & Hfront & Hex & Hfbk & Hsl).
  exists e1, front.
  rewrite !count_app, Hex, Hfbk, Hsl, Hlog, Hfront, <- !app_assoc.
  repeat split; try done; cbn; lia.
Qed.

(** C10.  A [Node] with [max_retries = 0]: the body of the [for] loop does
    not run, so [_exec] returns [None] whatever the prep result, and
    neither the node nor the world nor the log changes: [exec] and
    [exec_fallback] are not called. *)
Theorem exec_zero_retries this nd p e :
  cls (fields nd) = NodeC →
  max_retries (fields nd) = 0%Z →
  _exec this nd p e = (Returned VNone, nd, e).
Proof. intros Hcls Hmax. unfold _exec, Node__exec. by rewrite Hcls, Hmax. Qed.

End retry_properties.

(** The retry loop on concrete nodes: three attempts that all raise. *)
Lemma exec_raising_every_attempt_witness :
  let nd := nodes.Node_init 3 2 examples.failing_phases in
  ∃ exc o e' front,
    nodes.Node__exec 7 nd (VStr "x") examples.env0
    = (o, nodes.at_retry nd 2, e')
    ∧ nodes.log e'
      = front ++ [nodes.EvExec 7 (VStr "x") (Raised exc);
                  nodes.EvFallback 7 (VStr "x") exc o]
    ∧ nodes.count nodes.is_exec (nodes.log e') = 3
    ∧ nodes.count nodes.is_fallback (nodes.log e') = 1.
Proof.
  intros nd.
  destruct (exec_raising_every_attempt 7 nd (VStr "x") examples.env0 3)
    as (exc & o & e' & front & Hrun & _ & _ & Hlog & _ & Hex & Hfb & _).
  - reflexivity.
  - lia.
  - intros j Hj. do 3 (destruct j as [|j]; [reflexivity|]). lia.
  - exists exc, o, e', front. rewrite Hlog. cbn [nodes.log examples.env0 app].
    repeat split; assumption.
Defined.

(** Five attempts allowed, success at the third. *)
Lemma exec_succeeding_at_attempt_witness :
  let nd := nodes.Node_init 5 2 examples.flaky_phases in
  ∃ e' front,
    nodes.Node__exec 7 nd (VStr "x") examples.env0
    = (Returned (VInt 4), nodes.at_retry nd 2, e')
    ∧ nodes.log e' = front ++ [nodes.EvExec 7 (VStr "x") (Returned (VInt 4))]
    ∧ nodes.count nodes.is_exec (nodes.log e') = 3
    ∧ nodes.count nodes.is_fallback (nodes.log e') = 0.
Proof.
  intros nd.
  destruct (exec_succeeding_at_attempt 7 nd (VStr "x") examples.env0 5 3
              (VInt 4))
    as (e' & front & Hrun & _ & Hlog & Hex & Hfb & _).
  - reflexivity.
  - lia.
  - intros j Hj. do 2 (destruct j as [|j]; [reflexivity|]). lia.
  - reflexivity.
  - exists e', front. rewrite Hlog. cbn [nodes.log examples.env0 app].
    repeat split; assumption.
Defined.

Lemma exec_zero_retries_witness :
  nodes._exec 7 (nodes.Node_init 0 2 examples.flaky_phases) (VStr "x")
    examples.env0
  = (Returned VNone, nodes.Node_init 0 2 examples.flaky_phases, examples.env0).
Proof. apply exec_zero_retries; reflexivity. Defined.


(** * Properties of the transition table *)

Section table_properties.
Import nodes flow.

Lemma key_eqb_sym a b : key_eqb a b = key_eqb b a.
Proof.
  destruct a, b; cbn; try done; apply bool_decide_ext; split; congruence.
Qed.

Lemma key_eqb_true_l a b c : key_eqb a b = true → key_eqb c a = key_eqb c b.
Proof.
  destruct a, b, c; cbn; try done; intros ->%bool_decide_eq_true; done.
Qed.

Lemma dict_get_setitem_same k v d : dict_get k (dict_setitem k v d) = Some v.
Proof.
  induction d as [|[k' v'] d IH]; cbn.
  - destruct k; cbn; by rewrite bool_decide_eq_true_2.
  - destruct (key_eqb k k') eqn:E; cbn; by rewrite E.
Qed.

Lemma dict_get_setitem_other k k0 v d :
  key_eqb k0 k = false → dict_get k0 (dict_setitem k v d) = dict_get k0 d.
Proof.
  intros Hne. induction d as [|[k' v'] d IH]; cbn.
  - by rewrite Hne.
  - destruct (key_eqb k k') eqn:E; cbn.
    + by rewrite <- (key_eqb_true_l k k' k0 E), Hne.
    + by rewrite IH.
Qed.

Lemma dict_setitem_present k v d :
  dict_contains k d = true → (dict_setitem k v d).*1 = d.*1.
Proof.
  induction d as [|[k' v'] d IH]; cbn; [done|].
  destruct (key_eqb k k'); cbn; [done|]. intros Hd. by rewrite IH.
Qed.

Lemma dict_setitem_fresh k v d :
  dict_contains k d = false → dict_setitem k v d = d ++ [(k, v)].
Proof.
  induction d as [|[k' v'] d IH]; cbn; [done|].
  destruct (key_eqb k k'); cbn; [done|]. intros Hd. by rewrite IH.
Qed.

(** C8.  [self.next(node, action)] returns [node] and binds [action] to it
    in [self.successors]; every other key keeps its successor and nothing
    else of [self] changes.  When [action] was already a key, one warning
    is logged, the call goes on, and the keys keep their order; when it
    was not, no warning is logged and the new entry goes last. *)
Theorem next_registers_edge {W} (nd : node (W:=W)) tgt action (e : env) :
  ∃ nd' e',
    BaseNode_next nd tgt action e = (tgt, nd', e')
    ∧ methods nd' = methods nd
    ∧ fields nd'
      = set_successors (successors (fields nd')) (fields nd)
    ∧ dict_get action (successors (fields nd')) = Some tgt
    ∧ (∀ k, key_eqb k action = false →
            dict_get k (successors (fields nd'))
            = dict_get k (successors (fields nd)))
    ∧ world e' = world e
    ∧ if dict_contains action (successors (fields nd))
      then log e' = log e ++ [EvWarn ("Overwriting successor for action '"
                                      +:+ key_str action +:+ "'")]
           ∧ (successors (fields nd')).*1 = (successors (fields nd)).*1
      else log e' = log e
           ∧ successors (fields nd')
             = successors (fields nd) ++ [(action, tgt)].
Proof.
  unfold BaseNode_next. eexists _, _. split; [reflexivity|].
  cbn [methods fields successors set_successors].
  repeat split.
  - apply dict_get_setitem_same.
  - intros k Hk. by apply dict_get_setitem_other.
  - by destruct (dict_contains _ _).
  - destruct (dict_contains _ _) eqn:E.
    + split; [done|]. by apply dict_setitem_present.
    + split; [done|]. by apply dict_setitem_fresh.
Qed.

End table_properties.

Lemma next_registers_edge_witness :
  ∃ nd' e',
    nodes.BaseNode_next examples.wired 5 (nodes.KLabel "default") examples.env0
    = (5, nd', e')
    ∧ nodes.successors (nodes.fields nd')
      = [(nodes.KLabel "default", 5); (nodes.KLabel "retry", 2)]
    ∧ nodes.dict_get (nodes.KLabel "retry") (nodes.successors (nodes.fields nd'))
      = Some 2
    ∧ nodes.log e'
      = [nodes.EvWarn "Overwriting successor for action 'default'"].
Proof.
  destruct (next_registers_edge examples.wired 5 (nodes.KLabel "default")
              examples.env0)
    as (nd' & e' & Hcall & _ & _ & _ & Hother & _ & Hlog).
  exists nd', e'. split; [exact Hcall|].
  injection Hcall as <- <-. split; [reflexivity|].
  split; [|exact (proj1 Hlog)].
  rewrite (Hother (nodes.KLabel "retry")); reflexivity.
Defined.


(** * Properties of the transition selection *)

Section select_properties.
Import nodes flow.

Lemma select_app_label pre l n post r :
  select (pre ++ (KLabel l, n) :: post) r = select (pre ++ [(KLabel l, n)]) r.
Proof.
  induction pre as [|[[s|id f] n'] pre IH]; cbn; [done..|].
  by destruct (f r).
Qed.

Lemma select_app_rejected pre rest r :
  Forall (λ edge, ∃ id f, edge.1 = KPred id f ∧ f r = false) pre →
  select (pre ++ rest) r = select rest r.
Proof.
  induction 1 as [|[k n'] pre (id & f & Hk & Hf) _ IH]; cbn; [done|].
  cbn in Hk. subst k. by rewrite Hf.
Qed.

(** C2, as the code has it.  In a table that holds a plain-label edge,
    the edges registered after it - a predicate edge among them - play no
    part in the selection, whatever the result of the step; and the
    successor of the plain-label edge is taken for every result that all
    the edges registered before it reject, which is every result when the
    plain-label edge was registered first. *)
Theorem select_plain_label pre l n post r :
  select (pre ++ (KLabel l, n) :: post) r = select (pre ++ [(KLabel l, n)]) r
  ∧ (Forall (λ edge, ∃ id f, edge.1 = KPred id f ∧ f r = false) pre →
     select (pre ++ (KLabel l, n) :: post) r = Some n)
  ∧ select ((KLabel l, n) :: post) r = Some n.
Proof.
  split; [apply select_app_label|]. split; [|done].
  intros Hpre. by rewrite select_app_rejected.
Qed.

End select_properties.

(** A predicate edge that rejects the result, the default edge, and a
    predicate edge that accepts it: the default edge is followed. *)
Lemma select_plain_label_witness :
  flow.select [(nodes.KPred 0 (λ _, false), 10); (nodes.KLabel "default", 20);
               (nodes.KPred 1 (λ _, true), 30)]
    (VInt 7) = Some 20.
Proof.
  apply (proj1 (proj2 (select_plain_label [(nodes.KPred 0 (λ _, false), 10)]
                         "default" 20 [(nodes.KPred 1 (λ _, true), 30)]
                         (VInt 7)))).
  repeat constructor. by exists 0, (λ _, false).
Defined.

(** C2, as stated, fails: in [examples.branching] the label ["default"] is
    registered before the predicate key [1], yet the selection follows
    the predicate edge registered first, not the default edge. *)
Lemma select_earlier_predicate_taken :
  examples.branching
  = [(nodes.KPred 0 (λ _, true), 10)] ++ (nodes.KLabel "default", 20)
    :: [] ++ (nodes.KPred 1 (λ _, false), 30) :: []
  ∧ flow.select examples.branching VNone = Some 10
  ∧ flow.select examples.branching VNone ≠ Some 20.
Proof. repeat split. discriminate. Qed.


(** * Properties of the driver ([Flow.run], [Flow.reset]) *)

Section flow_properties.
Import nodes flow.
Context `{Clock W}.
Implicit Types (nd : node (W:=W)) (e : env (W:=W)) (m : machine (W:=W)).

Lemma posts_app l1 l2 : posts (l1 ++ l2) = posts l1 ++ posts l2.
Proof. apply omap_app. Qed.

Lemma call_prep_inv this nd sh e o sh' e' :
  call_prep this nd sh e = (o, sh', e') →
  log e' = log e ++ [EvPrep this sh o].
Proof.
  unfold call_prep. destruct (prep _ _ _ _) as [[? ?] ?].
  by intros [= <- <- <-].
Qed.

Lemma call_post_inv this nd sh p x e o sh' e' :
  call_post this nd sh p x e = (o, sh', e') →
  log e' = log e ++ [EvPost this sh p x o].
Proof.
  unfold call_post. destruct (post _ _ _ _ _ _) as [[? ?] ?].
  by intros [= <- <- <-].
Qed.

(** The retry loop changes nothing of the node but [cur_retry], and logs
    no call of [post]. *)
Lemma retry_loop_inv this p indices :
  ∀ nd e o nd' e',
    retry_loop this nd p indices e = (o, nd', e') →
    (∃ c', nd' = at_retry nd c')
    ∧ ∃ evs, log e' = log e ++ evs ∧ posts evs = [].
Proof.
  induction indices as [|i rest IH]; intros nd e o nd' e'; cbn [retry_loop].
  - intros [= <- <- <-]. split.
    + exists (cur_retry (fields nd)). by rewrite at_retry_own.
    + exists []. by rewrite app_nil_r.
  - pose proof (call_exec_log this (at_retry nd i) p e) as Hlog.
    destruct (call_exec this (at_retry nd i) p e) as [o1 e1].
    cbn [fst snd] in Hlog. destruct o1 as [v|exc].
    + intros [= <- <- <-]. split; [by exists i|]. by eexists.
    + case_bool_decide.
      * unfold call_exec_fallback.
        destruct (exec_fallback _ _ _ _ _) as [o2 w2].
        intros [= <- <- <-]. split; [by exists i|].
        eexists. cbn [log]. rewrite Hlog, <- app_assoc. done.
      * intros Hrec. apply IH in Hrec as [[c' ->] (evs & Hevs & Hposts)].
        split; [by exists c'|]. rewrite Hevs.
        case_bool_decide; cbn [sleep log]; rewrite Hlog, <- !app_assoc;
          eexists; (split; [reflexivity|]); exact Hposts.
Qed.

Lemma _exec_inv this nd p e o nd' e' :
  _exec this nd p e = (o, nd', e') →
  (∃ c', nd' = at_retry nd c')
  ∧ ∃ evs, log e' = log e ++ evs ∧ posts evs = [].
Proof.
  unfold _exec. destruct (cls (fields nd)).
  - unfold BaseNode__exec.
    pose proof (call_exec_log this nd p e) as Hlog.
    destruct (call_exec this nd p e) as [o1 e1]. intros [= <- <- <-]. split.
    + exists (cur_retry (fields nd)). by rewrite at_retry_own.
    + by eexists.
  - apply retry_loop_inv.
Qed.

(** [_run] leaves the node as it was but for [cur_retry]; when it returns
    [r], the last thing logged is the call of [post] that returned [r],
    and it is the only call of [post]. *)
Lemma BaseNode__run_inv this nd sh e o nd' sh' e' :
  BaseNode__run this nd sh e = (o, nd', sh', e') →
  (∃ c', nd' = at_retry nd c')
  ∧ ∃ o1 evs, log e' = log e ++ EvPrep this sh o1 :: evs
    ∧ ∀ r, o = Returned r →
           ∃ front shx p x,
             evs = front ++ [EvPost this shx p x (Returned r)]
             ∧ posts front = [].
Proof.
  unfold BaseNode__run.
  destruct (call_prep this nd sh e) as [[op sh1] e1] eqn:Hprep.
  apply call_prep_inv in Hprep. destruct op as [pv|exc].
  2:{ intros [= <- <- <- <-]. split.
      - exists (cur_retry (fields nd)). by rewrite at_retry_own.
      - exists (Raised exc), []. split; [done|]. by intros r [=]. }
  destruct (_exec this nd pv e1) as [[oe nd2] e2] eqn:Hexec.
  apply _exec_inv in Hexec as [[c' ->] (evs & Hevs & Hposts)].
  destruct oe as [x|exc].
  2:{ intros [= <- <- <- <-]. split; [by exists c'|].
      exists (Returned pv), evs. rewrite Hevs, Hprep, <- app_assoc.
      split; [done|]. by intros r [=]. }
  destruct (call_post this (at_retry nd c') sh1 pv x e2) as [[oq sh3] e3] eqn:Hpost.
  apply call_post_inv in Hpost. intros [= <- <- <- <-].
  split; [by exists c'|].
  exists (Returned pv), (evs ++ [EvPost this sh1 pv x oq]).
  rewrite Hpost, Hevs, Hprep, <- !app_assoc. split; [done|].
  intros r ->. by exists evs, sh1, pv, x.
Qed.

(** One pass through the loop body: the visited node is appended to the
    history, [start] and [current_node] are not assigned; when the pass
    completes, the table read is that of the visited node and the last
    thing logged is its call of [post]. *)
Lemma iteration_inv c m o m' :
  iteration c m = (o, m') →
  start (flow_obj m') = start (flow_obj m)
  ∧ current_node (flow_obj m') = current_node (flow_obj m)
  ∧ history (flow_obj m') = history (flow_obj m) ++ [c]
  ∧ ∀ r nxt, o = Returned (r, nxt) →
      ∃ nd c' front shx p x,
        heap m !! c = Some nd
        ∧ heap m' = <[c := at_retry nd c']> (heap m)
        ∧ nxt = select (successors (fields nd)) r
        ∧ log (environ m')
          = log (environ m) ++ front ++ [EvPost c shx p x (Returned r)]
        ∧ posts front = [].
Proof.
  unfold iteration. destruct (heap m !! c) as [nd|] eqn:Hnd.
  2:{ intros [= <- <-]. repeat split; try done; by intros r nxt [=]. }
  destruct (call_prep c nd _ (environ m)) as [[o1 sh1] e1] eqn:Hprep.
  apply call_prep_inv in Hprep. destruct o1 as [pv|exc].
  2:{ intros [= <- <-]. repeat split; try done; by intros r nxt [=]. }
  destruct (BaseNode__run c nd sh1 e1) as [[[o2 nd2] sh2] e2] eqn:Hrun.
  apply BaseNode__run_inv in Hrun as [[c' ->] (o3 & evs & Hlog & Hret)].
  destruct o2 as [r|exc]; intros [= <- <-]; cbn.
  2:{ repeat split; try done. }
  repeat split; try done. intros r' nxt [= <- <-].
  destruct (Hret r eq_refl) as (front & shx & p & x & -> & Hfront).
  exists nd, c', (EvPrep c (shared_data (flow_obj m)) (Returned pv)
                  :: EvPrep c sh1 o3 :: front), shx, p, x.
  repeat split; try done.
  rewrite Hlog, Hprep, <- !app_assoc. done.
Qed.

Lemma loop_inv fuel :
  ∀ cur res m o m',
    loop fuel cur res m = Finished o m' →
    start (flow_obj m') = start (flow_obj m)
    ∧ current_node (flow_obj m') = current_node (flow_obj m)
    ∧ ∃ visited,
        history (flow_obj m') = history (flow_obj m) ++ visited
        ∧ (∀ c, cur = Some c → head visited = Some c)
        ∧ (∀ r, o = Returned r →
             ∃ evs, log (environ m') = log (environ m) ++ evs
                    ∧ posts evs = visited).
Proof.
  induction fuel as [|fuel IH]; intros [c|] res m o m'; cbn [loop]; try done.
  1,3: intros [= <- <-]; repeat split; exists []; rewrite app_nil_r;
       (repeat split; try done); intros r _; exists []; by rewrite app_nil_r.
  destruct (iteration c m) as [[[r nxt]|exc] m1] eqn:Hit;
    apply iteration_inv in Hit as (Hs & Hc & Hh & Hret).
  - intros Hloop. apply IH in Hloop as (Hs' & Hc' & visited & Hh' & _ & Hret').
    split; [congruence|]. split; [congruence|].
    exists (c :: visited). rewrite Hh', Hh, <- app_assoc.
    split; [done|]. split; [by intros ? [= <-]|].
    intros r' ->. destruct (Hret' r' eq_refl) as (evs & Hevs & Hposts).
    destruct (Hret r nxt eq_refl)
      as (nd & c' & front & shx & p & x & _ & _ & _ & Hlog & Hfront).
    exists (front ++ [EvPost c shx p x (Returned r)] ++ evs).
    rewrite Hevs, Hlog, <- !app_assoc. split; [done|].
    by rewrite !posts_app, Hfront, Hposts.
  - intros [= <- <-]. split; [done|]. split; [done|]. exists [c].
    split; [done|]. split; [by intros ? [= <-]|]. by intros r [=].
Qed.

(** C6, as the code has it.  [run] starts its walk at [start] and assigns
    neither [start] nor [current_node]; it appends to [history] and never
    clears it: after a run, [history] is what it was before followed by
    the steps this run visited (for a run that returns, the steps whose
    [post] was called, in order).  So [history] holds the steps of this
    run alone exactly when it was empty before, as on a new [Flow] or
    after [reset]. *)
Theorem run_appends_to_history fuel params m o m' :
  Flow_run fuel params m = Finished o m' →
  start (flow_obj m') = start (flow_obj m)
  ∧ current_node (flow_obj m') = current_node (flow_obj m)
  ∧ ∃ visited,
      history (flow_obj m') = history (flow_obj m) ++ visited
      ∧ head visited = Some (start (flow_obj m))
      ∧ (∀ r, o = Returned r →
           ∃ evs, log (environ m') = log (environ m) ++ evs
                  ∧ posts evs = visited)
      ∧ (history (flow_obj m) = [] → history (flow_obj m') = visited).
Proof.
  unfold Flow_run. intros Hloop.
  apply loop_inv in Hloop as (Hs & Hc & visited & Hh & Hhead & Hret).
  assert (Hfl : ∀ fl1,
    fl1 = match params with
          | Some p =>
              if truthy params
              then MkFlow (start (flow_obj m)) (current_node (flow_obj m))
                     (p ∪ shared_data (flow_obj m)) (history (flow_obj m))
              else flow_obj m
          | None => flow_obj m
          end →
    start fl1 = start (flow_obj m)
    ∧ current_node fl1 = current_node (flow_obj m)
    ∧ history fl1 = history (flow_obj m)).
  { intros fl1 ->. destruct params; [destruct (truthy _)|]; done. }
  destruct (Hfl _ eq_refl) as (Hs1 & Hc1 & Hh1). cbn in *.
  rewrite Hs1 in *. rewrite Hc1 in *. rewrite Hh1 in *.
  repeat split; try done. exists visited. repeat split; try done.
  - by apply Hhead.
  - intros Hnil. by rewrite Hh, Hnil.
Qed.

(** On every node of the heap whose first [prep] completes, a pass logs
    two calls of [prep] before anything else: the one made by [Flow.run]
    and the one made by [_run]. *)
Lemma iteration_prep_twice c m nd :
  heap m !! c = Some nd →
  is_raised (prep (methods nd) (fields nd) (shared_data (flow_obj m))
               (world (environ m))).1.1 = false →
  ∃ pv sh1 o2 rest,
    log (environ (iteration c m).2)
    = log (environ m)
      ++ EvPrep c (shared_data (flow_obj m)) (Returned pv)
      :: EvPrep c sh1 o2 :: rest.
Proof.
  intros Hnd Hok. unfold iteration. rewrite Hnd.
  destruct (call_prep c nd _ (environ m)) as [[o1 sh1] e1] eqn:Hprep.
  assert (∃ pv, o1 = Returned pv) as [pv ->].
  { unfold call_prep in Hprep.
    destruct (prep _ _ _ _) as [[[pv|exc] ?] ?]; [|done].
    injection Hprep as <- _ _. by exists pv. }
  apply call_prep_inv in Hprep.
  destruct (BaseNode__run c nd sh1 e1) as [[[o2 nd2] sh2] e2] eqn:Hrun.
  apply BaseNode__run_inv in Hrun as [_ (o3 & evs & Hlog & _)].
  exists pv, sh1, o3, evs.
  destruct o2; cbn; by rewrite Hlog, Hprep, <- app_assoc.
Qed.

(** C7.  [reset] puts [current_node] back on [start], rebinds
    [shared_data] to an empty dictionary and [history] to an empty list;
    it touches neither [start], nor the node objects (their [params] and
    [successors] among the rest), nor the world.  What it leaves does not
    depend on the context or history it found, and a following run with
    no or empty [params] enters its loop on the empty dictionary: the
    first hook called, [prep] of the start node, receives [{}]. *)
Theorem reset_clears_run_state m :
  start (flow_obj (Flow_reset m)) = start (flow_obj m)
  ∧ current_node (flow_obj (Flow_reset m)) = start (flow_obj m)
  ∧ shared_data (flow_obj (Flow_reset m)) = ∅
  ∧ history (flow_obj (Flow_reset m)) = []
  ∧ heap (Flow_reset m) = heap m
  ∧ environ (Flow_reset m) = environ m
  ∧ (∀ cn sd h,
       Flow_reset (Machine (heap m) (MkFlow (start (flow_obj m)) cn sd h)
                           (environ m))
       = Flow_reset m)
  ∧ (∀ fuel params, truthy params = false →
       Flow_run fuel params (Flow_reset m)
       = loop fuel (Some (start (flow_obj m))) VNone (Flow_reset m))
  ∧ (∀ nd, heap m !! start (flow_obj m) = Some nd →
       ∃ o rest,
         log (environ (iteration (start (flow_obj m)) (Flow_reset m)).2)
         = log (environ m) ++ EvPrep (start (flow_obj m)) ∅ o :: rest).
Proof.
  repeat split.
  - intros fuel [p|] Hp; unfold Flow_run; [rewrite Hp|]; by destruct m.
  - intros nd Hnd. unfold iteration. cbn [Flow_reset heap flow_obj environ
      start current_node shared_data history]. rewrite Hnd.
    destruct (call_prep _ nd ∅ (environ m)) as [[o1 sh1] e1] eqn:Hprep.
    apply call_prep_inv in Hprep. destruct o1 as [pv|exc].
    2:{ exists (Raised exc), []. done. }
    destruct (BaseNode__run _ nd sh1 e1) as [[[o2 nd2] sh2] e2] eqn:Hrun.
    apply BaseNode__run_inv in Hrun as [_ (o3 & evs & Hlog & _)].
    exists (Returned pv), (EvPrep (start (flow_obj m)) sh1 o3 :: evs).
    destruct o2; cbn; by rewrite Hlog, Hprep, <- app_assoc.
Qed.

Lemma _exec_total this nd p e :
  (∀ a p (w : W), is_raised (exec (methods nd) a p w).1 = false) →
  is_raised (_exec this nd p e).1.1 = false.
Proof.
  intros Hex. unfold _exec, BaseNode__exec, Node__exec.
  destruct (cls (fields nd)).
  - unfold call_exec. specialize (Hex (fields nd) p (world e)).
    by destruct (exec _ _ _ _) as [o w].
  - destruct (range _) as [|i rest]; cbn [retry_loop]; [done|].
    unfold call_exec. cbn [methods at_retry].
    specialize (Hex (fields (at_retry nd i)) p (world e)).
    by destruct (exec _ _ _ _) as [[v|exc] w].
Qed.

Lemma BaseNode__run_total this nd sh e :
  never_raises (methods nd) →
  is_raised (BaseNode__run this nd sh e).1.1.1 = false.
Proof.
  intros (Hprep & Hexec & Hpost). unfold BaseNode__run, call_prep.
  specialize (Hprep (fields nd) sh (world e)).
  destruct (prep _ _ _ _) as [[[pv|exc] sh1] w1]; [|done].
  pose proof (_exec_total this nd pv
                (Env w1 (log e ++ [EvPrep this sh (Returned pv)])) Hexec) as Hx.
  destruct (_exec _ _ _ _) as [[[x|exc] nd2] e2] eqn:Hexec2; [|done].
  apply _exec_inv in Hexec2 as [[c' ->] _]. unfold call_post.
  cbn [methods at_retry].
  specialize (Hpost (fields (at_retry nd c')) sh1 pv x (world e2)).
  by destruct (post _ _ _ _ _ _) as [[[r|exc] sh3] w3].
Qed.

(** A pass over a node whose hooks complete normally completes normally. *)
Lemma iteration_normal c m nd :
  heap m !! c = Some nd →
  never_raises (methods nd) →
  ∃ r m' c' front shx p x,
    iteration c m = (Returned (r, select (successors (fields nd)) r), m')
    ∧ heap m' = <[c := at_retry nd c']> (heap m)
    ∧ history (flow_obj m') = history (flow_obj m) ++ [c]
    ∧ log (environ m')
      = log (environ m) ++ front ++ [EvPost c shx p x (Returned r)]
    ∧ posts front = [].
Proof.
  intros Hnd Hok.
  assert (∃ r nxt m', iteration c m = (Returned (r, nxt), m'))
    as (r & nxt & m' & Hit).
  { unfold iteration. rewrite Hnd. unfold call_prep.
    pose proof (proj1 Hok (fields nd) (shared_data (flow_obj m))
                  (world (environ m))) as Hp.
    destruct (prep _ _ _ _) as [[[pv|exc] sh1] w1]; [|done].
    match goal with |- context [BaseNode__run c nd sh1 ?e1] =>
      pose proof (BaseNode__run_total c nd sh1 e1 Hok) as Hr;
      destruct (BaseNode__run c nd sh1 e1) as [[[[r|exc] nd2] sh2] e2]
    end; [|done].
    by eexists _, _, _. }
  pose proof Hit as Hinv.
  apply iteration_inv in Hinv as (_ & _ & Hh & Hret).
  destruct (Hret r nxt eq_refl)
    as (nd' & c' & front & shx & p & x & Hnd' & Hheap & -> & Hlog & Hfront).
  rewrite Hnd in Hnd'. injection Hnd' as <-.
  by exists r, m', c', front, shx, p, x.
Qed.

Lemma pipeline3_wiring a b c nA nB nC e :
  a ≠ b → b ≠ c → a ≠ c →
  successors (fields nA) = [] → successors (fields nB) = [] →
  heap (pipeline3 a b c nA nB nC e) !! a
  = Some (MkNode (set_successors [(KLabel "default", b)] (fields nA))
                 (methods nA))
  ∧ heap (pipeline3 a b c nA nB nC e) !! b
    = Some (MkNode (set_successors [(KLabel "default", c)] (fields nB))
                   (methods nB))
  ∧ heap (pipeline3 a b c nA nB nC e) !! c = Some nC
  ∧ flow_obj (pipeline3 a b c nA nB nC e) = Flow_init a
  ∧ environ (pipeline3 a b c nA nB nC e) = e.
Proof.
  intros Hab Hbc Hac HA HB. unfold pipeline3.
  set (m0 := Machine (<[a:=nA]> (<[b:=nB]> (<[c:=nC]> ∅))) (Flow_init a) e).
  assert (rshift_stmt a b m0
          = Machine (<[a := MkNode (set_successors [(KLabel "default", b)]
                                      (fields nA)) (methods nA)]> (heap m0))
                    (Flow_init a) e) as ->.
  { unfold rshift_stmt. subst m0. cbn [heap]. rewrite lookup_insert_eq.
    unfold BaseNode_rshift, BaseNode_next. by rewrite HA. }
  unfold rshift_stmt. subst m0. cbn [heap].
  rewrite lookup_insert_ne, lookup_insert_ne, lookup_insert_eq by done.
  unfold BaseNode_rshift, BaseNode_next. rewrite HB.
  cbn [dict_contains dict_setitem environ flow_obj heap].
  repeat split; by simplify_map_eq.
Qed.

Lemma loop_none fuel res m : loop fuel None res m = Finished (Returned res) m.
Proof. by destruct fuel. Qed.

(** C5.  Three new steps [A], [B], [C] wired by [A >> B] and [B >> C],
    whose hooks complete normally, under a new [Flow] on [A]: [run]
    (given fuel for three passes) returns; the steps whose [post] is
    called are [A], [B], [C] in that order; the value returned is the one
    returned by the call of [post] on [C], the last call made; and
    [history] is [[A; B; C]] afterwards. *)
Theorem linear_pipeline_run a b c nA nB nC e fuel params :
  a ≠ b → b ≠ c → a ≠ c →
  successors (fields nA) = [] →
  successors (fields nB) = [] →
  successors (fields nC) = [] →
  never_raises (methods nA) →
  never_raises (methods nB) →
  never_raises (methods nC) →
  3 ≤ fuel →
  ∃ r m' front shx p x,
    Flow_run fuel params (pipeline3 a b c nA nB nC e)
    = Finished (Returned r) m'
    ∧ history (flow_obj m') = [a; b; c]
    ∧ log (environ m') = log e ++ front ++ [EvPost c shx p x (Returned r)]
    ∧ posts (front ++ [EvPost c shx p x (Returned r)]) = [a; b; c].
Proof.
  intros Hab Hbc Hac HA HB HC HokA HokB HokC Hfuel.
  destruct (pipeline3_wiring a b c nA nB nC e Hab Hbc Hac HA HB)
    as (Ha & Hb & Hc & Hfl & He).
  unfold Flow_run. rewrite Hfl, He.
  set (fl1 := match params with
              | Some p0 => if truthy params then _ else _
              | None => _ end).
  assert (start fl1 = a ∧ history fl1 = []) as [Hs Hh].
  { subst fl1. destruct params; [destruct (truthy _)|]; done. }
  rewrite Hs. clearbody fl1.
  destruct fuel as [|[|[|fuel]]]; try lia. cbn [loop].
  set (m1 := Machine _ fl1 e).
  destruct (iteration_normal a m1 _ Ha HokA)
    as (r1 & m2 & c1 & f1 & s1 & p1 & x1 & -> & Hheap2 & Hh2 & Hlog2 & Hf1).
  cbn [set_successors fields successors select].
  assert (heap m2 !! b = Some (MkNode (set_successors [(KLabel "default", c)]
                                         (fields nB)) (methods nB))) as Hb2.
  { rewrite Hheap2, lookup_insert_ne by done. exact Hb. }
  destruct (iteration_normal b m2 _ Hb2 HokB)
    as (r2 & m3 & c2 & f2 & s2 & p2 & x2 & -> & Hheap3 & Hh3 & Hlog3 & Hf2).
  cbn [set_successors fields successors select].
  assert (heap m3 !! c = Some nC) as Hc3.
  { rewrite Hheap3, Hheap2, !lookup_insert_ne by done. exact Hc. }
  destruct (iteration_normal c m3 _ Hc3 HokC)
    as (r3 & m4 & c3 & f3 & s3 & p3 & x3 & -> & Hheap4 & Hh4 & Hlog4 & Hf3).
  rewrite HC. cbn [select]. rewrite loop_none.
  exists r3, m4,
    (f1 ++ [EvPost a s1 p1 x1 (Returned r1)] ++ f2
        ++ [EvPost b s2 p2 x2 (Returned r2)] ++ f3), s3, p3, x3.
  split; [done|]. split.
  { rewrite Hh4, Hh3, Hh2. subst m1. cbn. by rewrite Hh. }
  split.
  { rewrite Hlog4, Hlog3, Hlog2. subst m1. cbn [environ].
    rewrite <- !app_assoc. reflexivity. }
  rewrite !posts_app, Hf1, Hf2, Hf3. done.
Qed.

End flow_properties.

Lemma named_phases_never_raise name :
  flow.never_raises (examples.named_phases name).
Proof. by repeat split. Qed.

Lemma linear_pipeline_run_witness :
  ∃ r m',
    flow.Flow_run 3 None examples.three_steps = flow.Finished (Returned r) m'
    ∧ flow.history (flow.flow_obj m') = [0; 1; 2]
    ∧ ∃ front shx p x,
        nodes.log (flow.environ m')
        = front ++ [nodes.EvPost 2 shx p x (Returned r)].
Proof.
  destruct (linear_pipeline_run 0 1 2
              (nodes.BaseNode_init (examples.named_phases "A"))
              (nodes.Node_init 2 0 (examples.named_phases "B"))
              (nodes.BaseNode_init (examples.named_phases "C"))
              examples.env0 3 None)
    as (r & m' & front & shx & p & x & Hrun & Hh & Hlog & _);
    [lia | lia | lia | reflexivity | reflexivity | reflexivity
    | apply named_phases_never_raise | apply named_phases_never_raise
    | apply named_phases_never_raise | lia |].
  exists r, m'. split; [exact Hrun|]. split; [exact Hh|].
  exists front, shx, p, x. exact Hlog.
Defined.

(** C6, as stated, fails: a second [run] on the same [Flow] without a
    [reset] in between leaves the steps of both runs in [history]. *)
Lemma second_run_keeps_earlier_history :
  ∃ m1 m2,
    flow.Flow_run 1 None examples.single = flow.Finished (Returned (VStr "A")) m1
    ∧ flow.Flow_run 1 None m1 = flow.Finished (Returned (VStr "A")) m2
    ∧ flow.history (flow.flow_obj m1) = [0]
    ∧ flow.history (flow.flow_obj m2) = [0; 0]
    ∧ flow.history (flow.flow_obj m2) ≠ [0].
Proof.
  eexists _, _. split; [vm_compute; reflexivity|].
  split; [vm_compute; reflexivity|]. by repeat split.
Qed.

Lemma run_appends_to_history_witness :
  ∃ visited,
    flow.history
      (flow.flow_obj
         (flow.machine_after (flow.Flow_run 1 None examples.ran_once)
                             examples.ran_once))
    = [0] ++ visited
    ∧ head visited = Some 0.
Proof.
  destruct (run_appends_to_history 1 None examples.ran_once
              (Returned (VStr "A"))
              (flow.machine_after (flow.Flow_run 1 None examples.ran_once)
                                  examples.ran_once))
    as (_ & _ & visited & Hh & Hhead & _); [vm_compute; reflexivity|].
  exists visited. split; [exact Hh | exact Hhead].
Defined.

Lemma reset_clears_run_state_witness :
  flow.shared_data (flow.flow_obj (flow.Flow_reset examples.ran_once)) = ∅
  ∧ flow.shared_data (flow.flow_obj examples.ran_once) !! "A"
    = Some (VBool true)
  ∧ ∃ o rest,
      nodes.log (flow.environ
                   (flow.iteration 0 (flow.Flow_reset examples.ran_once)).2)
      = nodes.log (flow.environ examples.ran_once)
        ++ nodes.EvPrep 0 ∅ o :: rest.
Proof.
  destruct (reset_clears_run_state examples.ran_once)
    as (_ & _ & Hsh & _ & _ & _ & _ & _ & Hfirst).
  split; [exact Hsh|]. split; [reflexivity|].
  apply (Hfirst (nodes.BaseNode_init (examples.named_phases "A"))).
  reflexivity.
Defined.

(** C3 on the one-step flow: a single visit calls [prep] twice - once by
    [Flow.run] itself and once inside [_run] - so the counter that [prep]
    keeps in the shared dictionary reads 2 after the run, whereas
    [BaseNode.run] on the same node calls it once. *)
Lemma run_calls_prep_twice :
  nodes.count nodes.is_prep
    (nodes.log (flow.environ examples.ran_once)) = 2
  ∧ flow.posts (nodes.log (flow.environ examples.ran_once)) = [0]
  ∧ flow.shared_data (flow.flow_obj examples.ran_once) !! "preps"
    = Some (VInt 2)
  ∧ nodes.count nodes.is_prep
      (nodes.log (nodes.BaseNode_run 0
                    (nodes.BaseNode_init (examples.named_phases "A")) ∅
                    examples.env0).2) = 1.
Proof. by vm_compute. Qed.


(** * The prompt cache of [LLMService.generate] *)

Section cache_properties.
Import llm_service.
Variable client : string → string → outcome string.

(** C9.  When the cache file holds a dictionary that maps the prompt to
    [r], [generate(prompt, use_cache=True)] returns [r]; it logs the
    prompt and the cache hit and nothing else - the provider is not
    called - and leaves the cache file as it is. *)
Theorem generate_cache_hit prompt r c s :
  cache_file s = Stored c →
  c !! prompt = Some r →
  ∃ s',
    generate client prompt true s = (Returned r, s')
    ∧ llm_log s'
      = llm_log s ++ [LogInfo ("PROMPT: " +:+ prompt);
                      LogInfo ("CACHE HIT - RESPONSE: " +:+ r)]
    ∧ List.filter is_provider_call
        [LogInfo ("PROMPT: " +:+ prompt);
         LogInfo ("CACHE HIT - RESPONSE: " +:+ r)] = []
    ∧ cache_file s' = cache_file s.
Proof.
  intros Hfile Hhit. unfold generate, load_cache_warn.
  cbn [logger cache_file]. rewrite Hfile, Hhit.
  eexists. split; [reflexivity|]. cbn. by rewrite <- app_assoc.
Qed.

End cache_properties.

Lemma generate_cache_hit_witness :
  ∃ s',
    llm_service.generate (λ _ _, Returned "fresh") "p" true examples.cached
    = (Returned "r", s')
    ∧ llm_service.llm_log s'
      = [llm_service.LogInfo "PROMPT: p";
         llm_service.LogInfo "CACHE HIT - RESPONSE: r"].
Proof.
  destruct (generate_cache_hit (λ _ _, Returned "fresh") "p" "r"
              {[ "p" := "r" ]} examples.cached)
    as (s' & Hrun & Hlog & _); [reflexivity | reflexivity |].
  exists s'. split; [exact Hrun | exact Hlog].
Defined.


(** * Further properties of the retry loop *)

Section retry_bounds.
Import nodes operators.
Context `{Clock W}.
Implicit Types (nd : node (W:=W)) (e : env (W:=W)).



(** X2.  A [Node] that keeps the inherited [exec_fallback] and whose
    [exec] raises at each of its [max_retries >= 1] attempts: [_exec]
    raises the exception of the last attempt, in the world that this
    attempt left. *)
Theorem default_fallback_reraises this nd p e (N : nat) :
  exec_fallback (methods nd) = Node_exec_fallback →
  max_retries (fields nd) = Z.of_nat N →
  1 ≤ N →
  (∀ j, j < N → is_raised (fst (attempt this nd p j e)) = true) →
  ∃ exc e',
    Node__exec this nd p e = (Raised exc, at_retry nd (Z.of_nat (N - 1)), e')
    ∧ fst (attempt this nd p (N - 1) e) = Raised exc
    ∧ world e' = world (snd (attempt this nd p (N - 1) e))
    ∧ log e' = log (snd (attempt this nd p (N - 1) e))
               ++ [EvFallback this p exc (Raised exc)].
Proof.
  intros Hdefault Hmax HN Hfail.
  destruct N as [|m]; [lia|]. replace (S m - 1) with m by lia.
  unfold Node__exec. rewrite Hmax, range_of_nat, seq_S, map_app.
  cbn [map Nat.add].
  destruct (retry_loop_skip this nd p e [Z.of_nat m] m 0
              (cur_retry (fields nd))) as [c' Hskip].
  { rewrite Hmax. lia. } { intros j Hj. apply Hfail. lia. }
  rewrite at_retry_own in Hskip. cbn [env_before] in Hskip. rewrite Hskip.
  cbn [Nat.add map retry_loop].
  change (at_retry (at_retry nd c') (Z.of_nat m)) with (at_retry nd (Z.of_nat m)).
  pose proof (Hfail m ltac:(lia)) as Hm. unfold attempt in *.
  destruct (call_exec this (at_retry nd (Z.of_nat m)) p
              (env_before this nd p m e)) as [[v|exc] e1]; [done|].
  cbn [fields at_retry set_cur_retry cur_retry max_retries].
  rewrite bool_decide_eq_true_2 by lia.
  unfold call_exec_fallback. cbn [methods at_retry]. rewrite Hdefault.
  cbn. by exists exc, (Env (world e1) (log e1 ++ [EvFallback this p exc (Raised exc)])).
Qed.

End retry_bounds.

Lemma default_fallback_reraises_witness :
  ∃ e',
    nodes.Node__exec 7 (nodes.Node_init 3 2 examples.failing_phases) (VStr "x")
      examples.env0
    = (Raised examples.boom,
       nodes.at_retry (nodes.Node_init 3 2 examples.failing_phases) 2, e')
    ∧ nodes.world e' = 4.
Proof.
  destruct (default_fallback_reraises 7
              (nodes.Node_init 3 2 examples.failing_phases) (VStr "x")
              examples.env0 3)
    as (exc & e' & Hrun & Hexc & Hw & _).
  - reflexivity.
  - reflexivity.
  - lia.
  - intros j Hj. do 3 (destruct j as [|j]; [reflexivity|]). lia.
  - exists e'. injection Hexc as <-. split; [exact Hrun | exact Hw].
Defined.


(** * The lifecycle of one node ([BaseNode._run], [BaseNode.run]) *)

Section lifecycle.
Import nodes flow operators.
Context `{Clock W}.
Implicit Types (nd : node (W:=W)) (e : env (W:=W)).

(** An exception leaves the retry loop only as the outcome of
    [exec_fallback]. *)
Lemma retry_loop_events this p indices :
  ∀ nd e o nd' e',
    retry_loop this nd p indices e = (o, nd', e') →
    ∃ evs, log e' = log e ++ evs
      ∧ forallb (retry_event this) evs = true
      ∧ ∀ exc, o = Raised exc →
          ∃ front p' exc',
            evs = front ++ [EvFallback this p' exc' (Raised exc)].
Proof.
  induction indices as [|i rest IH]; intros nd e o nd' e'; cbn [retry_loop].
  { intros [= <- <- <-]. exists []. rewrite app_nil_r.
    repeat split; by intros exc [=]. }
  pose proof (call_exec_log this (at_retry nd i) p e) as Hlog.
  destruct (call_exec this (at_retry nd i) p e) as [[v|exc] e1];
    cbn [fst snd] in Hlog.
  { intros [= <- <- <-]. exists [EvExec this p (Returned v)].
    cbn. rewrite bool_decide_eq_true_2 by done.
    repeat split; try done. }
  case_bool_decide.
  - unfold call_exec_fallback. destruct (exec_fallback _ _ _ _ _) as [o2 w2].
    intros [= <- <- <-].
    exists [EvExec this p (Raised exc); EvFallback this p exc o2].
    cbn. rewrite Hlog, <- app_assoc, bool_decide_eq_true_2 by done.
    repeat split; try done.
    intros exc' ->. by exists [EvExec this p (Raised exc)], p, exc.
  - intros Hrec. apply IH in Hrec as (evs & Hevs & Hall & Hlast).
    case_bool_decide; cbn [sleep log] in Hevs.
    + exists (EvExec this p (Raised exc)
              :: EvSleep (wait (fields (at_retry nd i))) :: evs).
      rewrite Hevs, Hlog, <- !app_assoc. cbn.
      rewrite bool_decide_eq_true_2 by done. repeat split; try done.
      intros exc' ->. destruct (Hlast exc' eq_refl) as (front & p' & x & ->).
      by exists (EvExec this p (Raised exc)
                 :: EvSleep (wait (fields nd)) :: front), p', x.
    + exists (EvExec this p (Raised exc) :: evs).
      rewrite Hevs, Hlog, <- !app_assoc. cbn.
      rewrite bool_decide_eq_true_2 by done. repeat split; try done.
      intros exc' ->. destruct (Hlast exc' eq_refl) as (front & p' & x & ->).
      by exists (EvExec this p (Raised exc) :: front), p', x.
Qed.

Lemma _exec_events this nd p e o nd' e' :
  _exec this nd p e = (o, nd', e') →
  ∃ evs, log e' = log e ++ evs
    ∧ forallb (retry_event this) evs = true
    ∧ ∀ exc, o = Raised exc →
        ∃ front ev,
          evs = front ++ [ev]
          ∧ event_node ev = Some this
          ∧ event_outcome ev = Some (Raised exc)
          ∧ (is_fallback ev = true ∨ cls (fields nd) = BaseNodeC).
Proof.
  unfold _exec. destruct (cls (fields nd)) eqn:Hcls.
  - unfold BaseNode__exec.
    pose proof (call_exec_log this nd p e) as Hlog.
    destruct (call_exec this nd p e) as [o1 e1]. intros [= <- <- <-].
    exists [EvExec this p o1]. cbn. rewrite bool_decide_eq_true_2 by done.
    repeat split; try done.
    intros exc ->. exists [], (EvExec this p (Raised exc)). auto.
  - intros Hloop. apply retry_loop_events in Hloop as (evs & Hevs & Hall & Hlast).
    exists evs. repeat split; try done.
    intros exc ->. destruct (Hlast exc eq_refl) as (front & p' & x & ->).
    exists front, (EvFallback this p' x (Raised exc)). auto.
Qed.

(** X3.  [BaseNode.run] on any node: it warns exactly when the node has
    successors; it calls [prep] once, first; then come only calls of
    [exec] and [exec_fallback] on this node and pauses; [post] is called
    at most once, last, exactly when what came before ended well, and
    its outcome is the outcome of [run]; otherwise [run] raises the
    exception of the last call made.  No hook of any other node is
    called and the node keeps its successors. *)
Theorem node_run_lifecycle this nd shared e o nd' shared' e' :
  BaseNode_run this nd shared e = (o, nd', shared', e') →
  ∃ o1 mid tail,
    log e'
    = log e
      ++ match successors (fields nd) with
         | [] => []
         | _ :: _ => [EvWarn "Node won't run successors. Use Flow."]
         end
      ++ EvPrep this shared o1 :: mid ++ tail
    ∧ forallb (retry_event this) mid = true
    ∧ ((∃ sh p x, tail = [EvPost this sh p x o] ∧ o1 = Returned p)
       ∨ (tail = []
          ∧ ∃ exc front ev,
              o = Raised exc
              ∧ EvPrep this shared o1 :: mid = front ++ [ev]
              ∧ event_outcome ev = Some (Raised exc)))
    ∧ successors (fields nd') = successors (fields nd)
    ∧ methods nd' = methods nd.
Proof.
  unfold BaseNode_run, BaseNode__run.
  set (warn := match successors (fields nd) with
               | [] => []
               | _ :: _ => [EvWarn "Node won't run successors. Use Flow."]
               end).
  set (e0 := match successors (fields nd) with [] => e | _ :: _ => emit _ e end).
  assert (log e0 = log e ++ warn) as He0.
  { subst e0 warn. destruct (successors (fields nd)); [by rewrite app_nil_r|done]. }
  clearbody e0 warn.
  destruct (call_prep this nd shared e0) as [[op sh1] e1] eqn:Hprep.
  apply call_prep_inv in Hprep. rewrite He0 in Hprep.
  destruct op as [pv|exc].
  2:{ intros [= <- <- <- <-]. exists (Raised exc), [], [].
      rewrite Hprep, <- app_assoc. repeat split; try done.
      right. split; [done|]. by exists exc, [], (EvPrep this shared (Raised exc)). }
  destruct (_exec this nd pv e1) as [[oe nd2] e2] eqn:Hexec.
  pose proof Hexec as Hinv. apply _exec_inv in Hinv as [[c' ->] _].
  apply _exec_events in Hexec as (evs & Hevs & Hall & Hlast).
  destruct oe as [x|exc].
  2:{ intros [= <- <- <- <-]. exists (Returned pv), evs, [].
      rewrite Hevs, Hprep, app_nil_r, <- !app_assoc.
      repeat split; try done. right. split; [done|].
      destruct (Hlast exc eq_refl) as (front & ev & -> & _ & Hout & _).
      by exists exc, (EvPrep this shared (Returned pv) :: front), ev. }
  destruct (call_post this (at_retry nd c') sh1 pv x e2) as [[oq sh3] e3] eqn:Hpost.
  apply call_post_inv in Hpost. intros [= <- <- <- <-].
  exists (Returned pv), evs, [EvPost this sh1 pv x oq].
  rewrite Hpost, Hevs, Hprep, <- !app_assoc.
  repeat split; try done. left. by exists sh1, pv, x.
Qed.

End lifecycle.

Lemma node_run_lifecycle_witness :
  ∃ e',
    nodes.BaseNode_run 0 examples.wired ∅ examples.env0
    = (Returned VNone, examples.wired, ∅, e')
    ∧ nodes.log e'
      = [nodes.EvWarn "Node won't run successors. Use Flow.";
         nodes.EvPrep 0 ∅ (Returned VNone);
         nodes.EvExec 0 VNone (Returned VNone);
         nodes.EvPost 0 ∅ VNone VNone (Returned VNone)].
Proof.
  eexists. split; [reflexivity|].
  destruct (node_run_lifecycle 0 examples.wired ∅ examples.env0
              (Returned VNone) examples.wired ∅
              (nodes.BaseNode_run 0 examples.wired ∅ examples.env0).2 eq_refl)
    as (o1 & mid & tail & Hlog & _).
  reflexivity.
Defined.


(** * Tables built with the operators *)

Section operator_properties.
Import nodes flow operators.
Context `{Clock W}.
Implicit Types (nd : node (W:=W)) (e : env (W:=W)) (m : machine (W:=W)).

Lemma labels_only_setitem l v d :
  labels_only d = true → labels_only (dict_setitem (KLabel l) v d) = true.
Proof.
  induction d as [|[k n] d IH]; [done|].
  cbn [labels_only forallb dict_setitem fst]. intros [Hk Hd]%andb_prop.
  destruct (key_eqb (KLabel l) k); cbn [forallb fst];
    apply andb_true_intro; auto.
Qed.

(** X4.  In a table without callable keys the successor taken is that of
    the edge registered first, whatever the result of the step and
    whatever the labels are; and [a >> b] and [(a - "action") >> b] keep
    a table free of callable keys. *)
Theorem select_ignores_labels nd tgt l e r1 r2 :
  labels_only (successors (fields nd)) = true →
  select (successors (fields nd)) r1 = snd <$> head (successors (fields nd))
  ∧ select (successors (fields nd)) r1 = select (successors (fields nd)) r2
  ∧ labels_only (successors (fields (BaseNode_rshift nd tgt e).1.2)) = true
  ∧ labels_only
      (successors (fields (BaseNode_next nd tgt (KLabel l) e).1.2)) = true.
Proof.
  intros Hlab. repeat split.
  - destruct (successors (fields nd)) as [|[[s|id f] n] d]; by cbn in *.
  - destruct (successors (fields nd)) as [|[[s|id f] n] d]; by cbn in *.
  - by apply labels_only_setitem.
  - by apply labels_only_setitem.
Qed.

(** X5.  On a node that already has an edge under a label, the statement
    [(node - "action") >> tgt] with another label registers the new
    edge without a warning, but the driver never follows it: the
    selection still takes the first edge, whatever the result. *)
Theorem labelled_edge_never_followed this nd m tgt l l0 n0 rest t r :
  heap m !! this = Some nd →
  successors (fields nd) = (KLabel l0, n0) :: rest →
  l ≠ l0 →
  dict_contains (KLabel l) rest = false →
  BaseNode_sub this (VStr l) = Returned t →
  ∃ nd',
    (ConditionalTransition_rshift t tgt m).1 = tgt
    ∧ heap (ConditionalTransition_rshift t tgt m).2 !! this = Some nd'
    ∧ successors (fields nd')
      = (KLabel l0, n0) :: rest ++ [(KLabel l, tgt)]
    ∧ environ (ConditionalTransition_rshift t tgt m).2 = environ m
    ∧ select (successors (fields nd')) r = Some n0.
Proof.
  intros Hnd Hsucc Hne Hfresh [= <-].
  unfold ConditionalTransition_rshift, next_stmt. cbn [src action fst snd].
  rewrite Hnd. unfold BaseNode_next. rewrite Hsucc.
  cbn [dict_contains dict_setitem key_eqb].
  rewrite bool_decide_eq_false_2 by done. rewrite Hfresh.
  rewrite dict_setitem_fresh by done.
  eexists. cbn [heap environ]. rewrite lookup_insert_eq. by repeat split.
Qed.

End operator_properties.

Lemma select_ignores_labels_witness :
  flow.select (nodes.successors (nodes.fields examples.wired)) (VInt 1) = Some 1
  ∧ flow.select (nodes.successors (nodes.fields examples.wired)) (VStr "retry")
    = Some 1.
Proof.
  destruct (select_ignores_labels examples.wired 9 "x" examples.env0
              (VInt 1) (VStr "retry") eq_refl) as (H1 & H2 & _).
  split; [exact H1|]. rewrite <- H2. exact H1.
Defined.

Lemma labelled_edge_never_followed_witness :
  ∃ nd',
    flow.heap (operators.ConditionalTransition_rshift
                 (operators.MkTransition 0 "error") 5
                 (flow.Machine {[ 0 := examples.wired ]} (flow.Flow_init 0)
                               examples.env0)).2 !! 0 = Some nd'
    ∧ flow.select (nodes.successors (nodes.fields nd')) (VStr "error") = Some 1.
Proof.
  destruct (labelled_edge_never_followed 0 examples.wired
              (flow.Machine {[ 0 := examples.wired ]} (flow.Flow_init 0)
                            examples.env0)
              5 "error" "default" 1 [(nodes.KLabel "retry", 2)]
              (operators.MkTransition 0 "error") (VStr "error"))
    as (nd' & _ & Hheap & _ & _ & Hsel);
    [reflexivity | reflexivity | discriminate | reflexivity | reflexivity |].
  exists nd'. split; [exact Hheap | exact Hsel].
Defined.


(** * Lines of nodes *)

Section line_properties.
Import nodes flow operators.
Context `{Clock W}.
Implicit Types (nd : node (W:=W)) (e : env (W:=W)) (m : machine (W:=W)).

Lemma rshift_stmt_fresh a b m nd :
  heap m !! a = Some nd →
  successors (fields nd) = [] →
  rshift_stmt a b m
  = Machine (<[a := MkNode (set_successors [(KLabel "default", b)] (fields nd))
                           (methods nd)]> (heap m))
            (flow_obj m) (environ m).
Proof.
  intros Hnd Hfresh. unfold rshift_stmt, BaseNode_rshift, BaseNode_next.
  by rewrite Hnd, Hfresh.
Qed.

Lemma rshift_stmt_other a b m x :
  x ≠ a → heap (rshift_stmt a b m) !! x = heap m !! x.
Proof.
  intros Hx. unfold rshift_stmt. destruct (heap m !! a); [|done].
  cbn. by rewrite lookup_insert_ne.
Qed.

Lemma connect_in_sequence_other ids :
  ∀ m x, x ∉ ids →
    heap (connect_in_sequence ids m) !! x = heap m !! x.
Proof.
  induction ids as [|a [|b rest] IH]; intros m x Hx; [done..|].
  change (connect_in_sequence (a :: b :: rest) m)
    with (connect_in_sequence (b :: rest) (rshift_stmt a b m)).
  apply not_elem_of_cons in Hx as [Hxa Hx].
  rewrite IH by done. by apply rshift_stmt_other.
Qed.

Lemma in_line_insert P ids h x nd :
  x ∉ ids → in_line P ids h → in_line P ids (<[x := nd]> h).
Proof.
  induction ids as [|a rest IH]; [done|].
  intros [Hxa Hx]%not_elem_of_cons [(nda & Ha & HP & Hsucc) Hrest]. split.
  - exists nda. by rewrite lookup_insert_ne.
  - by apply IH.
Qed.

(** Connecting new nodes in sequence puts them in line, and warns about
    nothing. *)
Lemma connect_in_sequence_in_line (P : node (W:=W) → Prop) ids :
  (∀ nd d, P nd → P (MkNode (set_successors d (fields nd)) (methods nd))) →
  ∀ m,
    NoDup ids →
    (∀ id, id ∈ ids →
       ∃ nd, heap m !! id = Some nd ∧ P nd ∧ successors (fields nd) = []) →
    in_line P ids (heap (connect_in_sequence ids m))
    ∧ flow_obj (connect_in_sequence ids m) = flow_obj m
    ∧ environ (connect_in_sequence ids m) = environ m.
Proof.
  intros HP. induction ids as [|a [|b rest] IH]; intros m Hnodup Hfresh.
  - done.
  - destruct (Hfresh a) as (nd & Ha & HPa & Hsucc);
      [apply elem_of_cons; by left|].
    cbn. repeat split; try done. by exists nd.
  - change (connect_in_sequence (a :: b :: rest) m)
      with (connect_in_sequence (b :: rest) (rshift_stmt a b m)).
    destruct (Hfresh a) as (nd & Ha & HPa & Hsucc);
      [apply elem_of_cons; by left|].
    apply NoDup_cons in Hnodup as [Ha_notin Hnodup].
    destruct (IH (rshift_stmt a b m) Hnodup) as (Hline & Hfl & Henv).
    { intros id Hid. rewrite rshift_stmt_other by (by intros ->).
      apply Hfresh. apply elem_of_cons. by right. }
    rewrite Hfl, Henv. rewrite (rshift_stmt_fresh a b m nd) in * by done.
    split; [|done]. split; [|exact Hline].
    eexists. rewrite connect_in_sequence_other by done. cbn [heap].
    rewrite lookup_insert_eq. repeat split; auto.
Qed.

Lemma default_last_cons (rest : list nat) :
  ∀ a b, default a (last (b :: rest)) = default b (last rest).
Proof.
  induction rest as [|c rest IH]; intros a b; [done|].
  change (last (b :: c :: rest)) with (last (c :: rest)).
  by rewrite (IH a c), (IH b c).
Qed.

Lemma rshift_chain_connect rest :
  ∀ a m,
    rshift_chain a rest m
    = (default a (last rest), connect_in_sequence (a :: rest) m).
Proof.
  induction rest as [|b rest IH]; intros a m; [done|].
  cbn [rshift_chain rshift_expr]. rewrite IH.
  f_equal. by rewrite default_last_cons.
Qed.

(** Walking down a line of nodes. *)
Lemma loop_in_line rest :
  ∀ a fuel res m,
    NoDup (a :: rest) →
    in_line (λ nd, never_raises (methods nd)) (a :: rest) (heap m) →
    length (a :: rest) ≤ fuel →
    ∃ r m' front shx p x,
      loop fuel (Some a) res m = Finished (Returned r) m'
      ∧ history (flow_obj m') = history (flow_obj m) ++ a :: rest
      ∧ log (environ m')
        = log (environ m)
          ++ front ++ [EvPost (default a (last rest)) shx p x (Returned r)]
      ∧ posts (front ++ [EvPost (default a (last rest)) shx p x (Returned r)])
        = a :: rest.
Proof.
  induction rest as [|b rest IH]; intros a fuel res m Hnodup Hline Hfuel;
    destruct fuel as [|fuel]; cbn [length] in Hfuel; try lia;
    destruct Hline as [(nd & Hnd & Hok & Hsucc) Hrest];
    destruct (iteration_normal a m nd Hnd Hok)
      as (r & m2 & c' & front & shx & p & x & Hit & Hheap & Hh & Hlog & Hfront);
    cbn [loop]; rewrite Hit, Hsucc; cbn [select].
  - rewrite loop_none. exists r, m2, front, shx, p, x.
    repeat split; try done. by rewrite posts_app, Hfront.
  - apply NoDup_cons in Hnodup as [Ha_notin Hnodup].
    destruct (IH b fuel r m2 Hnodup) as
      (r' & m' & front' & shx' & p' & x' & Hloop & Hh' & Hlog' & Hposts').
    { rewrite Hheap. by apply in_line_insert. }
    { cbn [length]. lia. }
    exists r', m', (front ++ [EvPost a shx p x (Returned r)] ++ front'),
      shx', p', x'.
    rewrite (default_last_cons rest a b).
    split; [done|]. split; [by rewrite Hh', Hh, <- app_assoc|].
    split; [by rewrite Hlog', Hlog, <- !app_assoc|].
    rewrite <- !app_assoc, posts_app, (posts_app [_]), Hfront, Hposts'. done.
Qed.

(** The events of a retry loop record no call of [post] or [prep] and no
    warning. *)
Lemma retry_events_no_post this evs :
  forallb (retry_event this) evs = true →
  posts evs = [] ∧ count is_prep evs = 0 ∧ count is_warn evs = 0
  ∧ Forall (λ ev, event_node ev = Some this ∨ event_node ev = None) evs.
Proof.
  induction evs as [|ev evs IH]; [done|].
  cbn [forallb]. intros [Hev Hall]%andb_prop.
  destruct (IH Hall) as (Hp & Hc & Hw & Hn).
  unfold count in *.
  destruct ev; cbn in *; try done; repeat split; try done;
    constructor; try done; try (by right);
    left; by apply bool_decide_eq_true in Hev as ->.
Qed.

(** What [_run] logs, in full. *)
Lemma BaseNode__run_events this nd sh e o nd' sh' e' :
  BaseNode__run this nd sh e = (o, nd', sh', e') →
  ∃ o1 mid tail,
    log e' = log e ++ EvPrep this sh o1 :: mid ++ tail
    ∧ forallb (retry_event this) mid = true
    ∧ ((∃ shx p x, tail = [EvPost this shx p x o])
       ∨ (tail = []
          ∧ ∃ exc front ev,
              o = Raised exc
              ∧ EvPrep this sh o1 :: mid = front ++ [ev]
              ∧ event_node ev = Some this
              ∧ event_outcome ev = Some (Raised exc)
              ∧ (is_exec ev = false ∨ cls (fields nd) = BaseNodeC))).
Proof.
  unfold BaseNode__run.
  destruct (call_prep this nd sh e) as [[op sh1] e1] eqn:Hprep.
  apply call_prep_inv in Hprep. destruct op as [pv|exc].
  2:{ intros [= <- <- <- <-]. exists (Raised exc), [], [].
      rewrite Hprep. repeat split; try done. right. split; [done|].
      exists exc, [], (EvPrep this sh (Raised exc)). repeat split; auto. }
  destruct (_exec this nd pv e1) as [[oe nd2] e2] eqn:Hexec.
  apply _exec_events in Hexec as (evs & Hevs & Hall & Hlast).
  destruct oe as [x|exc].
  2:{ intros [= <- <- <- <-]. exists (Returned pv), evs, [].
      rewrite Hevs, Hprep, app_nil_r, <- !app_assoc.
      repeat split; try done. right. split; [done|].
      destruct (Hlast exc eq_refl) as (front & ev & -> & Hn & Hout & Hcls).
      exists exc, (EvPrep this sh (Returned pv) :: front), ev.
      repeat split; try done.
      destruct Hcls as [Hfb|Hcls]; [left|by right]. by destruct ev. }
  destruct (call_post this nd2 sh1 pv x e2) as [[oq sh3] e3] eqn:Hpost.
  apply call_post_inv in Hpost. intros [= <- <- <- <-].
  exists (Returned pv), evs, [EvPost this sh1 pv x oq].
  rewrite Hpost, Hevs, Hprep, <- !app_assoc.
  repeat split; try done. left. by exists sh1, pv, x.
Qed.

Lemma in_line_last P rest :
  ∀ a h,
    in_line P (a :: rest) h →
    ∃ nd, h !! default a (last rest) = Some nd
          ∧ successors (fields nd) = [].
Proof.
  induction rest as [|b rest IH]; intros a h [(nd & Hnd & _ & Hsucc) Hrest].
  - by exists nd.
  - rewrite default_last_cons. by apply IH.
Qed.

(** X6.  The expression [n0 >> n1 >> ... >> nk] on new nodes wires them
    in a line without a warning, and its value is the last node [nk],
    not [n0].  Calling [run] on that value - as
    [TutorialGenerator.generate] does on [self.flow] - runs the
    lifecycle of [nk] alone: [prep] is called once, no hook of another
    node is called, and nothing warns that successors are skipped. *)
Theorem chain_expression_runs_last a rest m shared :
  NoDup (a :: rest) →
  (∀ id, id ∈ a :: rest →
     ∃ nd, heap m !! id = Some nd ∧ successors (fields nd) = []) →
  ∃ m1 o sh' m2 evs,
    rshift_chain a rest m = (default a (last rest), m1)
    ∧ in_line (λ _, True) (a :: rest) (heap m1)
    ∧ environ m1 = environ m
    ∧ run_stmt (default a (last rest)) shared m1 = (o, sh', m2)
    ∧ log (environ m2) = log (environ m) ++ evs
    ∧ count is_prep evs = 1
    ∧ count is_warn evs = 0
    ∧ Forall (λ ev, event_node ev = Some (default a (last rest))
                    ∨ event_node ev = None) evs.
Proof.
  intros Hnodup Hfresh. rewrite rshift_chain_connect.
  destruct (connect_in_sequence_in_line (λ _, True) (a :: rest)
              ltac:(done) m Hnodup) as (Hline & Hfl & Henv).
  { intros id Hid. destruct (Hfresh id Hid) as (nd & ? & ?). by exists nd. }
  destruct (in_line_last _ _ _ _ Hline) as (nd & Hnd & Hsucc).
  set (lst := default a (last rest)) in *.
  set (m1 := connect_in_sequence (a :: rest) m) in *.
  destruct (BaseNode__run lst nd shared (environ m1))
    as [[[o' nd'] sh''] e'] eqn:Hrun.
  assert (run_stmt lst shared m1
          = (o', sh'', Machine (<[lst := nd']> (heap m1)) (flow_obj m1) e'))
    as Hstmt.
  { unfold run_stmt. rewrite Hnd. unfold BaseNode_run. by rewrite Hsucc, Hrun. }
  apply BaseNode__run_events in Hrun as (o1 & mid & tail & Hlog & Hmid & Htail).
  destruct (retry_events_no_post lst mid Hmid) as (_ & Hprep & Hwarn & Hnodes).
  exists m1, o', sh'', (Machine (<[lst := nd']> (heap m1)) (flow_obj m1) e'),
    (EvPrep lst shared o1 :: mid ++ tail).
  cbn [environ]. rewrite Hlog, Henv.
  split; [done|]. split; [exact Hline|]. split; [done|].
  split; [exact Hstmt|]. split; [done|].
  change (EvPrep lst shared o1 :: mid ++ tail)
    with ([EvPrep lst shared o1] ++ mid ++ tail).
  rewrite !count_app, Hprep, Hwarn. repeat split.
  - destruct Htail as [(? & ? & ? & ->)|[-> _]]; done.
  - destruct Htail as [(? & ? & ? & ->)|[-> _]]; done.
  - constructor; [by left|]. apply Forall_app. split; [done|].
    destruct Htail as [(? & ? & ? & ->)|[-> _]]; [|done].
    constructor; [by left|done].
Qed.

(** X7.  New nodes connected in sequence by [n0 >> n1], [n1 >> n2], ...,
    with hooks that complete normally, under a [Flow] on [n0]: [run]
    (given fuel for one pass per node) returns the result of [post] on
    the last node, calls [post] on each node once, in the order of the
    line, and appends the whole line to [history]. *)
Theorem line_of_nodes_run a rest m fuel params :
  NoDup (a :: rest) →
  (∀ id, id ∈ a :: rest →
     ∃ nd, heap m !! id = Some nd ∧ never_raises (methods nd)
           ∧ successors (fields nd) = []) →
  start (flow_obj m) = a →
  length (a :: rest) ≤ fuel →
  ∃ r m' front shx p x,
    Flow_run fuel params (connect_in_sequence (a :: rest) m)
    = Finished (Returned r) m'
    ∧ history (flow_obj m') = history (flow_obj m) ++ a :: rest
    ∧ log (environ m')
      = log (environ m)
        ++ front ++ [EvPost (default a (last rest)) shx p x (Returned r)]
    ∧ posts (front ++ [EvPost (default a (last rest)) shx p x (Returned r)])
      = a :: rest.
Proof.
  intros Hnodup Hfresh Hstart Hfuel.
  destruct (connect_in_sequence_in_line (λ nd, never_raises (methods nd))
              (a :: rest) ltac:(done) m Hnodup Hfresh) as (Hline & Hfl & Henv).
  unfold Flow_run. rewrite Hfl, Henv.
  set (fl1 := match params with
              | Some p0 => if truthy params then _ else _
              | None => _ end).
  assert (start fl1 = a ∧ history fl1 = history (flow_obj m)) as [Hs Hh].
  { subst fl1. destruct params; [destruct (truthy _)|]; done. }
  rewrite Hs. clearbody fl1.
  destruct (loop_in_line rest a fuel VNone
              (Machine (heap (connect_in_sequence (a :: rest) m)) fl1
                       (environ m)) Hnodup Hline Hfuel)
    as (r & m' & front & shx & p & x & Hloop & Hhist & Hlog & Hposts).
  exists r, m', front, shx, p, x. cbn in Hhist, Hlog.
  rewrite Hh in Hhist. done.
Qed.

(** X8.  A node whose first edge is a plain-label edge to itself (as
    after [a >> a]) and whose hooks complete normally: a [Flow] started
    on it visits it again and again, and [run] does not return, however
    much fuel it is given. *)
Theorem self_loop_never_returns m nd l rest fuel params :
  heap m !! start (flow_obj m) = Some nd →
  successors (fields nd) = (KLabel l, start (flow_obj m)) :: rest →
  never_raises (methods nd) →
  Flow_run fuel params m = OutOfFuel.
Proof.
  intros Hnd Hsucc Hok. unfold Flow_run.
  set (fl1 := match params with
              | Some p0 => if truthy params then _ else _
              | None => _ end).
  assert (start fl1 = start (flow_obj m)) as ->.
  { subst fl1. destruct params; [destruct (truthy _)|]; done. }
  clearbody fl1. set (a := start (flow_obj m)) in *.
  assert (∀ fuel res m1 c0,
            heap m1 !! a = Some (at_retry nd c0) →
            loop fuel (Some a) res m1 = OutOfFuel) as Hloop.
  { clear fuel. induction fuel as [|fuel IH]; intros res m1 c0 Hm1; [done|].
    cbn [loop].
    destruct (iteration_normal a m1 _ Hm1 Hok)
      as (r & m2 & c' & _ & _ & _ & _ & -> & Hheap & _).
    cbn [at_retry fields set_cur_retry successors]. rewrite Hsucc.
    cbn [select]. apply (IH r m2 c'). rewrite Hheap.
    by rewrite lookup_insert_eq. }
  apply (Hloop fuel VNone _ (cur_retry (fields nd))).
  cbn [heap]. by rewrite at_retry_own.
Qed.

End line_properties.


(** * What a run is given and how it fails *)

Section run_properties.
Import nodes flow operators.
Context `{Clock W}.
Implicit Types (nd : node (W:=W)) (e : env (W:=W)) (m : machine (W:=W)).

Lemma iteration_log c m :
  ∃ evs, log (environ (iteration c m).2) = log (environ m) ++ evs
    ∧ ∀ nd, heap m !! c = Some nd →
        ∃ o rest, evs = EvPrep c (shared_data (flow_obj m)) o :: rest.
Proof.
  unfold iteration. destruct (heap m !! c) as [nd|] eqn:Hnd.
  2:{ exists []. cbn. by rewrite app_nil_r. }
  destruct (call_prep c nd _ (environ m)) as [[o1 sh1] e1] eqn:Hprep.
  apply call_prep_inv in Hprep. cbn [shared_data] in Hprep.
  destruct o1 as [pv|exc].
  2:{ eexists. cbn. split; [exact Hprep|]. intros ? _. by eexists _, _. }
  destruct (BaseNode__run c nd sh1 e1) as [[[o2 nd2] sh2] e2] eqn:Hrun.
  apply BaseNode__run_inv in Hrun as [_ (o3 & evs & Hlog & _)].
  exists (EvPrep c (shared_data (flow_obj m)) (Returned pv)
          :: EvPrep c sh1 o3 :: evs).
  split; [|intros ? _; by eexists _, _].
  destruct o2; cbn; by rewrite Hlog, Hprep, <- app_assoc.
Qed.

Lemma loop_log fuel :
  ∀ cur res m o m',
    loop fuel cur res m = Finished o m' →
    ∃ evs, log (environ m') = log (environ m) ++ evs.
Proof.
  induction fuel as [|fuel IH]; intros [c|] res m o m'; cbn [loop]; try done.
  1,3: intros [= <- <-]; exists []; by rewrite app_nil_r.
  destruct (iteration_log c m) as (evs & Hevs & _).
  destruct (iteration c m) as [[[r nxt]|exc] m1]; cbn [snd] in Hevs.
  - intros (evs' & Hevs')%IH. exists (evs ++ evs').
    by rewrite Hevs', Hevs, <- app_assoc.
  - intros [= <- <-]. by exists evs.
Qed.

(** X9.  [run(params)] lays [params] over the shared dictionary it finds
    - it does not clear what earlier runs left - and the first hook
    called, [prep] of the start node, receives the result: a key of
    [params] has its new value, any other key keeps the old one. *)
Theorem run_overlays_params fuel params m o m' nd :
  heap m !! start (flow_obj m) = Some nd →
  Flow_run fuel params m = Finished o m' →
  ∃ o1 rest,
    log (environ m')
    = log (environ m)
      ++ EvPrep (start (flow_obj m))
                (default ∅ params ∪ shared_data (flow_obj m)) o1 :: rest
    ∧ (∀ k v, default ∅ params !! k = Some v →
              (default ∅ params ∪ shared_data (flow_obj m)) !! k = Some v)
    ∧ (∀ k, default ∅ params !! k = None →
            (default ∅ params ∪ shared_data (flow_obj m)) !! k
            = shared_data (flow_obj m) !! k).
Proof.
  intros Hnd. unfold Flow_run.
  set (fl1 := match params with
              | Some p0 => if truthy params then _ else _
              | None => _ end).
  assert (start fl1 = start (flow_obj m)
          ∧ shared_data fl1 = default ∅ params ∪ shared_data (flow_obj m))
    as [Hs Hsh].
  { subst fl1. destruct params as [p|]; cbn.
    - unfold truthy. case_bool_decide as Hp; cbn; [|done].
      subst p. by rewrite (left_id_L ∅ (∪)).
    - by rewrite (left_id_L ∅ (∪)). }
  rewrite Hs. clearbody fl1.
  destruct fuel as [|fuel]; [done|]. cbn [loop].
  set (m1 := Machine (heap m) fl1 (environ m)).
  destruct (iteration_log (start (flow_obj m)) m1) as (evs & Hevs & Hfirst).
  destruct (Hfirst nd Hnd) as (o1 & rest & ->).
  cbn [flow_obj m1] in Hevs. rewrite Hsh in Hevs.
  intros Hrun.
  assert (∃ evs', log (environ m')
                  = log (environ (iteration (start (flow_obj m)) m1).2) ++ evs')
    as [evs' Hevs'].
  { destruct (iteration (start (flow_obj m)) m1) as [[[r nxt]|exc] m2].
    - by apply loop_log in Hrun.
    - injection Hrun as <- <-. exists []. by rewrite app_nil_r. }
  exists o1, (rest ++ evs'). split; [|split].
  - rewrite Hevs', Hevs, <- app_assoc. done.
  - intros k v Hk. by apply lookup_union_Some_l.
  - intros k Hk. by rewrite lookup_union_r.
Qed.




End run_properties.


(** * [FetchRepo._filter_files] *)

Section filter_properties.
Import fetch_repo.

Lemma endswith_spec s suffix :
  endswith s suffix = true ↔ ∃ pre, s = pre +:+ suffix.
Proof.
  split.
  - induction s as [|c s IH]; cbn [endswith].
    + destruct (String.eqb "" suffix) eqn:E; [|done].
      apply String.eqb_eq in E as <-. by exists "".
    + destruct (String.eqb (String c s) suffix) eqn:E.
      * apply String.eqb_eq in E as <-. by exists "".
      * intros [pre ->]%IH. by exists (String c pre).
  - intros [pre ->]. induction pre as [|c pre IH].
    + change ("" +:+ suffix) with suffix.
      destruct suffix; cbn [endswith]; by rewrite String.eqb_refl.
    + change (String c pre +:+ suffix) with (String c (pre +:+ suffix)).
      cbn [endswith]. rewrite IH. by destruct (String.eqb _ _).
Qed.

Lemma startswith_spec s prefix :
  startswith s prefix = true ↔ ∃ rest, s = prefix +:+ rest.
Proof.
  revert s. induction prefix as [|a prefix IH]; intros s.
  - split; [|by destruct s]. intros _. by exists s.
  - destruct s as [|b s]; cbn [startswith].
    + split; [done|]. by intros [rest [=]].
    + destruct (Ascii.eqb a b) eqn:E.
      * apply Ascii.eqb_eq in E as <-. rewrite IH. split.
        -- intros [rest ->]. by exists rest.
        -- intros [rest [= ->]]. by exists rest.
      * split; [done|]. intros [rest [= -> _]].
        by rewrite Ascii.eqb_refl in E.
Qed.

Lemma include_loop_existsb p patterns :
  include_loop p patterns
  = existsb (λ pattern, endswith p (lstrip "*" pattern)) patterns.
Proof.
  induction patterns as [|pattern rest IH]; [done|].
  cbn [include_loop existsb]. rewrite IH. by destruct (endswith _ _).
Qed.

Lemma exclude_loop_existsb p patterns :
  exclude_loop p patterns
  = existsb (λ pattern, startswith p (rstrip "/*" pattern)) patterns.
Proof.
  induction patterns as [|pattern rest IH]; [done|].
  cbn [exclude_loop existsb]. rewrite IH. by destruct (startswith _ _).
Qed.

Lemma filter_loop_filter includes excludes max_size files :
  ∀ filtered_files,
    filter_loop includes excludes max_size files filtered_files
    = filtered_files
      ++ List.filter
           (λ f, (size f <=? max_size)%Z
                 && (include_loop (path f) includes
                     && negb (exclude_loop (path f) excludes)))
           files.
Proof.
  induction files as [|f files IH]; intros acc; cbn [filter_loop List.filter].
  { by rewrite app_nil_r. }
  rewrite IH. destruct (size f <=? max_size)%Z; cbn [andb].
  - destruct (include_loop _ _ && negb _); [by rewrite <- app_assoc|done].
  - done.
Qed.

(** X11.  [_filter_files] returns, in their order, the files that are no
    larger than [max_file_size] (100000 when the key is missing), whose
    path ends with some include pattern stripped of its leading stars,
    and whose path starts with no exclude pattern stripped of its
    trailing slashes and stars; the patterns are not matched as globs. *)
Theorem filter_files_keeps params files :
  sublist (_filter_files params files) files
  ∧ ∀ f,
      f ∈ _filter_files params files
      ↔ f ∈ files
        ∧ (size f ≤ default 100000 (max_file_size params))%Z
        ∧ (∃ pattern pre,
             pattern ∈ default [] (include_patterns params)
             ∧ path f = pre +:+ lstrip "*" pattern)
        ∧ ¬ (∃ pattern rest,
               pattern ∈ default [] (exclude_patterns params)
               ∧ path f = rstrip "/*" pattern +:+ rest).
Proof.
  unfold _filter_files. rewrite filter_loop_filter. cbn [app].
  set (inc := default [] (include_patterns params)).
  set (exc := default [] (exclude_patterns params)).
  set (mx := default 100000%Z (max_file_size params)).
  split.
  { induction files as [|f files IH]; cbn [List.filter]; [done|].
    destruct (_ && _); by constructor. }
  intros f. rewrite list_elem_of_In, List.filter_In, <- list_elem_of_In.
  rewrite !andb_true_iff, negb_true_iff, Z.leb_le.
  rewrite include_loop_existsb, exclude_loop_existsb.
  rewrite existsb_exists, <- not_true_iff_false, existsb_exists.
  split.
  - intros (Hin & Hsize & (pat & Hpat & Hends) & Hexcl).
    repeat split; try done.
    + apply endswith_spec in Hends as [pre Hpre].
      exists pat, pre. by rewrite list_elem_of_In.
    + intros (pat' & rest & Hpat' & Hstarts). apply Hexcl.
      exists pat'. rewrite <- list_elem_of_In. split; [done|].
      apply startswith_spec. by exists rest.
  - intros (Hin & Hsize & (pat & pre & Hpat & Hpre) & Hexcl).
    repeat split; try done.
    + exists pat. rewrite <- list_elem_of_In. split; [done|].
      apply endswith_spec. by exists pre.
    + intros (pat' & Hpat' & Hstarts). apply Hexcl.
      apply startswith_spec in Hstarts as [rest Hrest].
      exists pat', rest. by rewrite list_elem_of_In.
Qed.

(** X12.  Without include patterns - the key missing from the
    parameters, or an empty list - [_filter_files] returns no file at
    all, whatever the files, the size limit and the exclude patterns. *)
Theorem filter_files_without_includes params files :
  default [] (include_patterns params) = [] →
  _filter_files params files = [].
Proof.
  intros Hinc. unfold _filter_files. rewrite Hinc, filter_loop_filter.
  cbn [app include_loop andb]. induction files as [|f files IH]; [done|].
  cbn [List.filter]. by rewrite andb_false_r.
Qed.

Lemma lstrip_only_chars chars s : only_chars chars s = true → lstrip chars s = "".
Proof.
  induction s as [|c s IH]; [done|]. cbn [only_chars lstrip].
  intros [-> Hs]%andb_prop. by apply IH.
Qed.

Lemma rstrip_only_chars chars s : only_chars chars s = true → rstrip chars s = "".
Proof.
  induction s as [|c s IH]; [done|]. cbn [only_chars rstrip].
  intros [-> Hs]%andb_prop. by rewrite IH.
Qed.

(** X13.  An exclude pattern made only of slashes and stars (["*"],
    ["/"], ["**/*"], the empty pattern) excludes every file: the
    stripped pattern is empty and every path starts with it. *)
Theorem filter_files_star_exclude params files pattern :
  pattern ∈ default [] (exclude_patterns params) →
  only_chars "/*" pattern = true →
  _filter_files params files = [].
Proof.
  intros Hpat Hstar. unfold _filter_files. rewrite filter_loop_filter.
  cbn [app]. induction files as [|f files IH]; [done|].
  cbn [List.filter]. rewrite exclude_loop_existsb.
  assert (existsb (λ pat, startswith (path f) (rstrip "/*" pat))
                  (default [] (exclude_patterns params)) = true) as ->.
  { apply existsb_exists. exists pattern. rewrite <- list_elem_of_In.
    split; [done|]. rewrite rstrip_only_chars by done. by destruct (path f). }
  cbn [negb]. by rewrite !andb_false_r.
Qed.

(** X14.  With an include pattern made only of stars and no exclude
    patterns, [_filter_files] keeps exactly the files within the size
    limit: the stripped pattern is empty and every path ends with it. *)
Theorem filter_files_star_include params files pattern :
  pattern ∈ default [] (include_patterns params) →
  only_chars "*" pattern = true →
  default [] (exclude_patterns params) = [] →
  _filter_files params files
  = List.filter (λ f, (size f <=? default 100000 (max_file_size params))%Z)
                files.
Proof.
  intros Hpat Hstar Hexc. unfold _filter_files.
  rewrite filter_loop_filter, Hexc. cbn [app].
  apply List.filter_ext. intros f. cbn [exclude_loop negb].
  rewrite include_loop_existsb.
  assert (existsb (λ pat, endswith (path f) (lstrip "*" pat))
                  (default [] (include_patterns params)) = true) as ->.
  { apply existsb_exists. exists pattern. rewrite <- list_elem_of_In.
    split; [done|]. rewrite lstrip_only_chars by done.
    apply endswith_spec. exists (path f).
    induction (path f) as [|c p' IHp]; [done|].
    change (String c p' +:+ "") with (String c (p' +:+ "")). by rewrite <- IHp. }
  cbn [andb]. by rewrite andb_true_r.
Qed.

End filter_properties.


(** * Further properties of [LLMService] *)

Section generate_properties.
Import llm_service.
Variable client : string → string → outcome string.

Lemma call_provider_supported prompt s resp :
  supported (llm_provider s) = true →
  client (llm_provider s) prompt = resp →
  call_provider client prompt s
  = (resp, logger (ProviderCall (llm_provider s) prompt) s).
Proof. unfold call_provider. by intros -> ->. Qed.

(** X15.  A cache miss with a supported provider that answers and a
    cache file that can be written: [generate] calls the provider once
    and returns its text; the cache file then holds what could be
    loaded before (nothing, for a missing or unreadable file) plus the
    new entry, every other prompt keeping its entry; and a second
    [generate] of the same prompt returns the same text without calling
    the provider, whatever the provider would now answer. *)
Theorem generate_miss_then_hit prompt resp s :
  load_cache_quiet s !! prompt = None →
  supported (llm_provider s) = true →
  client (llm_provider s) prompt = Returned resp →
  writable s = true →
  ∃ s1 warn,
    generate client prompt true s = (Returned resp, s1)
    ∧ llm_log s1
      = llm_log s ++ [LogInfo ("PROMPT: " +:+ prompt)] ++ warn
        ++ [ProviderCall (llm_provider s) prompt;
            LogInfo ("RESPONSE: " +:+ resp)]
    ∧ List.filter is_provider_call warn = []
    ∧ cache_file s1 = Stored (<[prompt := resp]> (load_cache_quiet s))
    ∧ (∀ q, q ≠ prompt → load_cache_quiet s1 !! q = load_cache_quiet s !! q)
    ∧ ∀ client',
        generate client' prompt true s1
        = (Returned resp,
           logger (LogInfo ("CACHE HIT - RESPONSE: " +:+ resp))
             (logger (LogInfo ("PROMPT: " +:+ prompt)) s1)).
Proof.
  intros Hmiss Hsup Hresp Hw. unfold generate, load_cache_warn.
  cbn [logger cache_file llm_provider writable].
  destruct (cache_file s) as [| |c] eqn:Hfile; unfold load_cache_quiet in Hmiss;
    rewrite Hfile in Hmiss; cbn [logger cache_file]; rewrite ?Hmiss, ?lookup_empty;
    unfold call_provider; cbn [llm_provider logger]; rewrite Hsup, Hresp;
    unfold update_cache, load_cache_quiet, write_cache;
    cbn [logger cache_file writable llm_provider llm_log]; rewrite Hfile, Hw;
    cbn [cache_file writable llm_provider llm_log].
  - eexists _, []. split; [reflexivity|]. cbn [llm_log cache_file].
    rewrite <- !app_assoc. repeat split.
    + intros q Hq. by rewrite lookup_insert_ne.
    + intros client'. by rewrite lookup_insert_eq.
  - eexists _, [LogWarning _]. split; [reflexivity|]. cbn [llm_log cache_file].
    rewrite <- !app_assoc. repeat split.
    + intros q Hq. by rewrite lookup_insert_ne.
    + intros client'. by rewrite lookup_insert_eq.
  - eexists _, []. split; [reflexivity|]. cbn [llm_log cache_file].
    rewrite <- !app_assoc. repeat split.
    + intros q Hq. by rewrite lookup_insert_ne.
    + intros client'. by rewrite lookup_insert_eq.
Qed.

(** X16.  With [use_cache=False] the cache file is neither consulted nor
    written: the provider is called even for a prompt the cache holds,
    its text is returned, and the file is left as it is. *)
Theorem generate_without_cache prompt resp s :
  supported (llm_provider s) = true →
  client (llm_provider s) prompt = Returned resp →
  ∃ s1,
    generate client prompt false s = (Returned resp, s1)
    ∧ llm_log s1
      = llm_log s ++ [LogInfo ("PROMPT: " +:+ prompt);
                      ProviderCall (llm_provider s) prompt;
                      LogInfo ("RESPONSE: " +:+ resp)]
    ∧ cache_file s1 = cache_file s.
Proof.
  intros Hsup Hresp. unfold generate, call_provider.
  cbn [logger llm_provider]. rewrite Hsup, Hresp.
  eexists. split; [reflexivity|]. cbn. by rewrite <- !app_assoc.
Qed.

(** X17.  When the prompt is not served from the cache and the provider
    call fails - the provider is not one of the three supported, or the
    client raises - [generate] raises an [Exception] whose message is
    ["LLM generation failed: "] followed by the message of the failure,
    logs it as an error, and leaves the cache file as it is. *)
Theorem generate_failure_wrapped prompt use_cache s e :
  (use_cache = false ∨ load_cache_quiet s !! prompt = None) →
  (if supported (llm_provider s) then client (llm_provider s) prompt
   else Raised (Exception "ValueError"
                  ("Unsupported LLM provider: " +:+ llm_provider s)))
  = Raised e →
  ∃ s1 evs,
    generate client prompt use_cache s
    = (Raised (Exception "Exception" ("LLM generation failed: " +:+ exn_msg e)),
       s1)
    ∧ llm_log s1
      = llm_log s ++ evs
        ++ [LogError ("LLM generation failed: " +:+ exn_msg e)]
    ∧ (supported (llm_provider s) = false
       → List.filter is_provider_call evs = [])
    ∧ cache_file s1 = cache_file s.
Proof.
  intros Hmiss Hfail.
  assert (∀ s', llm_provider s' = llm_provider s →
            ∃ evs,
              call_provider client prompt s'
              = (Raised e, LlmState (cache_file s') (writable s')
                             (llm_provider s') (llm_log s' ++ evs))
              ∧ (supported (llm_provider s) = false
                 → List.filter is_provider_call evs = [])) as Hcall.
  { intros [cf wr pr lg] Hp. cbn in Hp. subst pr.
    unfold call_provider, logger.
    cbn [cache_file writable llm_provider llm_log].
    destruct (supported (llm_provider s)).
    - rewrite Hfail. by exists [ProviderCall (llm_provider s) prompt].
    - injection Hfail as <-. exists []. by rewrite app_nil_r. }
  unfold generate.
  set (s0 := logger (LogInfo ("PROMPT: " +:+ prompt)) s).
  assert (∃ warn s',
            (if use_cache
             then let '(cache, s1) := load_cache_warn s0 in (cache !! prompt, s1)
             else (None, s0)) = (None, s')
            ∧ llm_provider s' = llm_provider s
            ∧ cache_file s' = cache_file s
            ∧ llm_log s' = llm_log s ++ [LogInfo ("PROMPT: " +:+ prompt)] ++ warn
            ∧ List.filter is_provider_call warn = [])
    as (warn & s' & -> & Hp & Hc & Hl & Hwarn).
  { destruct use_cache.
    - destruct Hmiss as [?|Hmiss]; [done|].
      unfold load_cache_warn, load_cache_quiet in *. subst s0.
      cbn [logger cache_file].
      destruct (cache_file s) eqn:Hfile.
      + exists [], (logger (LogInfo ("PROMPT: " +:+ prompt)) s).
        by rewrite lookup_empty.
      + exists [LogWarning "Failed to load cache, starting with empty cache"],
          (logger (LogWarning "Failed to load cache, starting with empty cache")
             (logger (LogInfo ("PROMPT: " +:+ prompt)) s)).
        rewrite lookup_empty. cbn. by rewrite <- app_assoc.
      + exists [], (logger (LogInfo ("PROMPT: " +:+ prompt)) s).
        by rewrite Hmiss.
    - exists [], s0. by subst s0. }
  destruct (Hcall s' Hp) as (evs & -> & Hevs).
  eexists. exists ([LogInfo ("PROMPT: " +:+ prompt)] ++ warn ++ evs).
  split; [reflexivity|]. cbn [logger llm_log cache_file]. rewrite Hl, Hc.
  split; [by rewrite <- !app_assoc|]. split; [|done].
  intros Hsup. rewrite !List.filter_app, Hwarn, (Hevs Hsup). done.
Qed.

Lemma load_cache_warn_miss prompt s :
  load_cache_quiet s !! prompt = None →
  ∃ warn,
    (let '(cache, s1) :=
       load_cache_warn (logger (LogInfo ("PROMPT: " +:+ prompt)) s) in
     (cache !! prompt, s1))
    = (None,
       LlmState (cache_file s) (writable s) (llm_provider s)
                (llm_log s ++ [LogInfo ("PROMPT: " +:+ prompt)] ++ warn))
    ∧ List.filter is_provider_call warn = [].
Proof.
  intros Hmiss. unfold load_cache_warn, load_cache_quiet, logger in *.
  cbn [cache_file writable llm_provider llm_log].
  destruct (cache_file s) eqn:Hfile.
  - exists []. by rewrite lookup_empty.
  - exists [LogWarning "Failed to load cache, starting with empty cache"].
    rewrite lookup_empty. cbn [cache_file writable llm_provider llm_log].
    by rewrite <- app_assoc.
  - exists []. by rewrite Hmiss.
Qed.

(** X18.  A cache miss whose answer cannot be saved (the cache file
    cannot be opened for writing): [generate] still returns the
    provider's text, logs the failure as an error, and leaves the cache
    file as it is, so the next call asks the provider again. *)
Theorem generate_unwritable_cache prompt resp s :
  load_cache_quiet s !! prompt = None →
  supported (llm_provider s) = true →
  client (llm_provider s) prompt = Returned resp →
  writable s = false →
  ∃ s1 evs,
    generate client prompt true s = (Returned resp, s1)
    ∧ llm_log s1
      = llm_log s ++ evs
        ++ [LogError "Failed to save cache: cannot open file"]
    ∧ cache_file s1 = cache_file s
    ∧ load_cache_quiet s1 !! prompt = None.
Proof.
  intros Hmiss Hsup Hresp Hw. unfold generate.
  destruct (load_cache_warn_miss prompt s Hmiss) as (warn & -> & Hwarn).
  unfold call_provider, update_cache, logger.
  cbn [cache_file writable llm_provider llm_log]. rewrite Hsup, Hresp, Hw.
  eexists.
  exists ([LogInfo ("PROMPT: " +:+ prompt)] ++ warn
          ++ [ProviderCall (llm_provider s) prompt;
              LogInfo ("RESPONSE: " +:+ resp)]).
  split; [reflexivity|]. cbn [cache_file llm_log].
  split; [by rewrite <- !app_assoc|]. split; [done|]. exact Hmiss.
Qed.

End generate_properties.

Section setup_properties.
Import llm_client.



End setup_properties.


(** * The further properties on concrete inputs *)

Lemma chain_expression_runs_last_witness :
  ∃ m1 o sh' m2,
    operators.rshift_chain 0 [1; 2] samples.fresh_three = (2, m1)
    ∧ operators.run_stmt 2 ∅ m1 = (o, sh', m2)
    ∧ nodes.count nodes.is_prep (nodes.log (flow.environ m2)) = 1.
Proof.
  destruct (chain_expression_runs_last 0 [1; 2] samples.fresh_three ∅)
    as (m1 & o & sh' & m2 & evs & Hchain & _ & _ & Hrun & Hlog & Hprep & _).
  - apply (bool_decide_unpack _). vm_compute. exact I.
  - intros id Hid. rewrite !elem_of_cons, elem_of_nil in Hid.
    destruct Hid as [->|[->|[->|[]]]]; eexists; split; reflexivity.
  - exists m1, o, sh', m2. split; [exact Hchain|]. split; [exact Hrun|].
    rewrite Hlog. exact Hprep.
Defined.

Lemma line_of_nodes_run_witness :
  ∃ r m',
    flow.Flow_run 3 None
      (operators.connect_in_sequence [0; 1; 2] samples.fresh_three)
    = flow.Finished (Returned r) m'
    ∧ flow.history (flow.flow_obj m') = [0; 1; 2].
Proof.
  destruct (line_of_nodes_run 0 [1; 2] samples.fresh_three 3 None)
    as (r & m' & front & shx & p & x & Hrun & Hh & _).
  - apply (bool_decide_unpack _). vm_compute. exact I.
  - intros id Hid. rewrite !elem_of_cons, elem_of_nil in Hid.
    destruct Hid as [->|[->|[->|[]]]]; eexists;
      (split; [reflexivity|]); (split; [|reflexivity]);
      apply named_phases_never_raise.
  - reflexivity.
  - cbn. lia.
  - exists r, m'. split; [exact Hrun | exact Hh].
Defined.

Lemma self_loop_never_returns_witness :
  flow.Flow_run 50 None samples.looping = flow.OutOfFuel.
Proof.
  apply (self_loop_never_returns samples.looping
           (nodes.MkNode
              (nodes.set_successors [(nodes.KLabel "default", 0)]
                 (nodes.fields (nodes.BaseNode_init (examples.named_phases "A"))))
              (examples.named_phases "A"))
           "default" []).
  - reflexivity.
  - reflexivity.
  - apply named_phases_never_raise.
Defined.

Lemma run_overlays_params_witness :
  ∃ o1 rest,
    nodes.log (flow.environ
                 (flow.machine_after
                    (flow.Flow_run 1 (Some {[ "lang" := VStr "en" ]})
                                   examples.ran_once)
                    examples.ran_once))
    = nodes.log (flow.environ examples.ran_once)
      ++ nodes.EvPrep 0
           ({[ "lang" := VStr "en" ]}
            ∪ flow.shared_data (flow.flow_obj examples.ran_once)) o1
      :: rest.
Proof.
  destruct (run_overlays_params 1 (Some {[ "lang" := VStr "en" ]})
              examples.ran_once (Returned (VStr "A"))
              (flow.machine_after
                 (flow.Flow_run 1 (Some {[ "lang" := VStr "en" ]})
                                examples.ran_once)
                 examples.ran_once)
              (nodes.BaseNode_init (examples.named_phases "A")))
    as (o1 & rest & Hlog & _).
  - reflexivity.
  - vm_compute. reflexivity.
  - exists o1, rest. exact Hlog.
Defined.


Lemma filter_files_keeps_witness :
  fetch_repo.File "src/app.py" 120 "print(1)"
  ∈ fetch_repo._filter_files samples.python_params samples.repo_files.
Proof.
  apply (proj2 (filter_files_keeps samples.python_params samples.repo_files)).
  split; [|split; [|split]].
  - apply elem_of_cons. by left.
  - cbn. lia.
  - exists "*.py", "src/app". split; [|reflexivity].
    apply elem_of_cons. by left.
  - intros (pattern & rest & Hpat & Hpath). cbn in Hpat.
    rewrite elem_of_cons, elem_of_nil in Hpat.
    destruct Hpat as [->|[]]. discriminate Hpath.
Defined.

Lemma filter_files_without_includes_witness :
  fetch_repo._filter_files (fetch_repo.FilterParams None None None)
    samples.repo_files = [].
Proof. apply filter_files_without_includes. reflexivity. Defined.

Lemma filter_files_star_exclude_witness :
  fetch_repo._filter_files
    (fetch_repo.FilterParams (Some ["*.py"]) (Some ["docs/*"; "*"]) None)
    samples.repo_files = [].
Proof.
  apply (filter_files_star_exclude _ _ "*").
  - cbn. apply elem_of_cons. right. apply elem_of_cons. by left.
  - reflexivity.
Defined.

Lemma filter_files_star_include_witness :
  fetch_repo.path
  <$> fetch_repo._filter_files
        (fetch_repo.FilterParams (Some ["*"]) None None) samples.repo_files
  = ["src/app.py"; "tests/test_app.py"; "README.md"; "src/util.js"].
Proof.
  rewrite (filter_files_star_include _ _ "*").
  - reflexivity.
  - cbn. apply elem_of_cons. by left.
  - reflexivity.
  - reflexivity.
Defined.

Lemma generate_miss_then_hit_witness :
  ∃ s1,
    llm_service.generate samples.answering "p" true samples.no_cache
    = (Returned "answer to p", s1)
    ∧ llm_service.cache_file s1 = llm_service.Stored {[ "p" := "answer to p" ]}
    ∧ (llm_service.generate samples.down "p" true s1).1
      = Returned "answer to p".
Proof.
  destruct (generate_miss_then_hit samples.answering "p" "answer to p"
              samples.no_cache)
    as (s1 & warn & Hrun & _ & _ & Hfile & _ & Hagain);
    [reflexivity..|].
  exists s1. split; [exact Hrun|]. split; [exact Hfile|].
  by rewrite (Hagain samples.down).
Defined.

Lemma generate_without_cache_witness :
  ∃ s1,
    llm_service.generate samples.answering "p" false examples.cached
    = (Returned "answer to p", s1)
    ∧ llm_service.cache_file s1 = llm_service.Stored {[ "p" := "r" ]}.
Proof.
  destruct (generate_without_cache samples.answering "p" "answer to p"
              examples.cached) as (s1 & Hrun & _ & Hfile);
    [reflexivity..|].
  exists s1. split; [exact Hrun | exact Hfile].
Defined.

Lemma generate_failure_wrapped_witness :
  ∃ s1,
    llm_service.generate samples.down "q" true examples.cached
    = (Raised (Exception "Exception"
                 "LLM generation failed: connection refused"), s1)
    ∧ llm_service.cache_file s1 = llm_service.Stored {[ "p" := "r" ]}.
Proof.
  destruct (generate_failure_wrapped samples.down "q" true examples.cached
              (Exception "ConnectionError" "connection refused"))
    as (s1 & evs & Hrun & _ & _ & Hfile).
  - right. reflexivity.
  - reflexivity.
  - exists s1. split; [exact Hrun | exact Hfile].
Defined.

Lemma generate_unwritable_cache_witness :
  ∃ s1,
    llm_service.generate samples.answering "q" true samples.read_only_cache
    = (Returned "answer to q", s1)
    ∧ llm_service.cache_file s1 = llm_service.Stored {[ "p" := "r" ]}.
Proof.
  destruct (generate_unwritable_cache samples.answering "q" "answer to q"
              samples.read_only_cache) as (s1 & evs & Hrun & _ & Hfile & _);
    [reflexivity..|].
  exists s1. split; [exact Hrun | exact Hfile].
Defined.

